(** * mobx-state-tree: the top-level API and the JSON-patch path codec

    A shallow embedding of [src/top-level-api.ts] and [core/json-patch.ts],
    together with models of the collaborators these two files delegate to
    (the node engine, the type system, the reactive box), and the properties
    of the specification proved or refuted over them.

    Layout: the embedding comes first, one module per source file or
    collaborator; the facts follow, grouped by component. *)

From Stdlib Require Import ZArith String Ascii List Lia DecimalString.
From stdpp Require Import gmap strings list.

Open Scope string_scope.
Open Scope list_scope.
Set Warnings "-register-all".

(** ** Errors ([utils]) *)

Module Utils.

(** A JavaScript call either returns or throws an [Error] with a message. *)
Inductive Result (A : Type) : Type :=
| Ok (a : A)
| Throw (message : string).
Arguments Ok {A} a.
Arguments Throw {A} message.

Definition bind {A B} (r : Result A) (k : A -> Result B) : Result B :=
  match r with
  | Ok a => k a
  | Throw m => Throw m
  end.

(** Modelled from the spec: [fail] and [invariant] live in [utils], which is
    not among the sources at hand.  Every error the repository's tests
    observe carries the library tag in front of its message, and a violated
    invariant is reported to the immediate caller (spec, section 7). *)
Definition fail {A} (message : string) : Result A :=
  Throw ("[mobx-state-tree] " +:+ message).

Definition invariant (cond : bool) (message : string) : Result unit :=
  if cond then Ok tt else fail message.

End Utils.
Export Utils.

#[global] Instance Result_ret : MRet Result := @Ok.
#[global] Instance Result_bind : MBind Result := fun A B k r => Utils.bind r k.

(** ** JavaScript strings

    Strings are sequences of code units; every character the path codec
    inspects or produces is ASCII, so [string] stands for them. *)

Module JsString.

(** [s.startsWith(pat)] *)
Fixpoint starts_with (pat s : string) : bool :=
  match pat, s with
  | EmptyString, _ => true
  | String p pat', String c s' => if Ascii.eqb p c then starts_with pat' s' else false
  | String _ _, EmptyString => false
  end.

(** [s.replace(/pat/g, rep)] for a literal, non-empty pattern: the string is
    scanned from left to right, every match is replaced and the scan resumes
    after the match ([skip] counts the code units of a match still to be
    dropped). *)
Fixpoint replace_from (pat rep : string) (skip : nat) (s : string) : string :=
  match s with
  | EmptyString => EmptyString
  | String c r =>
      match skip with
      | S k => replace_from pat rep k r
      | O =>
          if starts_with pat s
          then rep +:+ replace_from pat rep (String.length pat - 1) r
          else String c (replace_from pat rep 0 r)
      end
  end.

Definition replace_all (pat rep s : string) : string := replace_from pat rep 0 s.

(** [s.split(sep)] for a one-character separator; never the empty array. *)
Fixpoint split (sep : ascii) (s : string) : list string :=
  match s with
  | EmptyString => [EmptyString]
  | String c r =>
      if Ascii.eqb c sep then EmptyString :: split sep r
      else match split sep r with
           | h :: t => String c h :: t
           | [] => [String c EmptyString]
           end
  end.

(** [parts.join(sep)] *)
Fixpoint join (sep : string) (parts : list string) : string :=
  match parts with
  | [] => EmptyString
  | [p] => p
  | p :: rest => p +:+ sep +:+ join sep rest
  end.

(** [s.substr(1)] *)
Definition substr1 (s : string) : string :=
  match s with
  | EmptyString => EmptyString
  | String _ r => r
  end.

(** [s[0] === c] *)
Definition first_is (c : ascii) (s : string) : bool :=
  match s with
  | EmptyString => false
  | String d _ => Ascii.eqb d c
  end.

(** The double quote, kept out of string literals. *)
Definition dquote : string := String (ascii_of_nat 34) EmptyString.
Definition backslash : string := String (ascii_of_nat 92) EmptyString.

End JsString.

(** ** [core/json-patch.ts] *)

Module JsonPatch.
Import JsString.

Inductive PatchOp := OpReplace | OpAdd | OpRemove.

(** Plain JSON data, as snapshots and patch values are. Object entries are
    kept in key order of insertion.  A number is an integer, [JNum n], or the
    double [m * 2^e], [JFloat m e]. *)
Inductive Json :=
| JNull
| JBool (b : bool)
| JNum (n : Z)
| JFloat (m e : Z)
| JStr (s : string)
| JArr (items : list Json)
| JObj (entries : list (string * Json)).

Record IJsonPatch := {
  op : PatchOp;
  path : string;
  value : option Json
}.

(** [str.replace(/~/g, "~1").replace(/\//g, "~0")] *)
Definition escapeJsonPath (str : string) : string :=
  replace_all "/" "~0" (replace_all "~" "~1" str).

(** [str.replace(/~0/g, "\\").replace(/~1/g, "~")] *)
Definition unescapeJsonPath (str : string) : string :=
  replace_all "~1" "~" (replace_all "~0" backslash str).

Definition joinJsonPath (path : list string) : string :=
  match path with
  | [] => ""
  | _ => "/" +:+ join "/" (map escapeJsonPath path)
  end.

Definition splitJsonPath (path : string) : Result (list string) :=
  if String.eqb path "" then Ok []
  else
    invariant (first_is "/" path)
      ("Expected path to start with '/', got: '" +:+ path +:+ "'");;
    Ok (map unescapeJsonPath (split "/" (substr1 path))).

End JsonPatch.

(** ** Stateful calls

    A call that reads and writes the process state [S] and may throw; the
    state written before a throw stays written. *)

Module Effect.

Definition Eff (S A : Type) : Type := S -> Result A * S.

Definition eret {S A} (a : A) : Eff S A := fun s => (Ok a, s).

Definition ebind {S A B} (m : Eff S A) (k : A -> Eff S B) : Eff S B :=
  fun s =>
    match m s with
    | (Ok a, s') => k a s'
    | (Throw e, s') => (Throw e, s')
    end.

Definition lift {S A} (r : Result A) : Eff S A := fun s => (r, s).

Definition gets {S A} (f : S -> A) : Eff S A := fun s => (Ok (f s), s).

Definition modify {S} (f : S -> S) : Eff S unit := fun s => (Ok tt, f s).

(** [try { m } finally { fin }] *)
Definition finally {S A} (m : Eff S A) (fin : S -> S) : Eff S A :=
  fun s => let (r, s') := m s in (r, fin s').

End Effect.
Export Effect.

Notation "'do' x <- m ; k" := (ebind m (fun x => k))
  (at level 10, x name, m at level 100, k at level 200).

(** ** JavaScript values *)

Module Js.

Definition Ref := nat.

(** What a binding of type [any] may hold: a primitive or a reference to an
    object (a model instance, a box, ...). *)
Inductive Value :=
| VUndefined
| VNull
| VBool (b : bool)
| VNum (n : Z)
| VStr (s : string)
| VObject (r : Ref).

(** The truthiness test behind [!v] and [v ? a : b]: every object is truthy. *)
Definition ToBoolean (v : Value) : bool :=
  match v with
  | VUndefined | VNull => false
  | VBool b => b
  | VNum n => negb (Z.eqb n 0)
  | VStr s => negb (String.eqb s "")
  | VObject _ => true
  end.

(** [v !== null] *)
Definition strict_neq_null (v : Value) : bool :=
  match v with
  | VNull => false
  | _ => true
  end.

End Js.
Export Js.

(** ** The node engine ([core/node], [mobx])

    The [Node] class and [getNode] are not among the sources at hand.  The
    model keeps what the top-level API reads and writes through them: the link
    from an instance to its node, the parent link and path segment of every
    node, the patch listener registry, and the heap of arrays that recorders
    share with their listeners.  What applying a patch does to the tree data
    stays abstract: [engine_applyPatch] turns the engine state [T] into the
    next one and names the patch events it fires. *)

Module Tree.
Import JsonPatch.

Definition IModel := Ref.
Definition NodeRef := Ref.
Definition ArrRef := Ref.

(** The closures handed to [onPatch]; [recordPatches] registers
    [(patch) => recorder.patches.push(patch)]. *)
Inductive PatchCallback :=
| PushTo (patches : ArrRef).

(** A disposer removes one registration from one node. *)
Record IDisposer := {
  disposer_node : NodeRef;
  disposer_id : nat
}.

Record Node := {
  target : IModel;
  parent : option NodeRef;
  subpath : string;
  patchListeners : list (nat * PatchCallback)
}.

Inductive Event :=
| BatchStart
| BatchEnd
| ApplyPatchCall (node : NodeRef) (patch : IJsonPatch).

Record World {T : Type} := {
  treenode : gmap IModel NodeRef;
  nodes : gmap NodeRef Node;
  arrays : gmap ArrRef (list IJsonPatch);
  fresh : nat;
  engine : T;
  trace : list Event
}.
Arguments World : clear implicits.

Section Engine.
Context {T : Type}.
Variable engine_applyPatch :
  NodeRef -> IJsonPatch -> T -> Result (T * list (NodeRef * IJsonPatch)).

Abbreviation W := (World T).

Definition with_nodes (f : gmap NodeRef Node -> gmap NodeRef Node) (w : W) : W :=
  {| treenode := treenode w; nodes := f (nodes w); arrays := arrays w;
     fresh := fresh w; engine := engine w; trace := trace w |}.

Definition with_arrays
    (f : gmap ArrRef (list IJsonPatch) -> gmap ArrRef (list IJsonPatch)) (w : W) : W :=
  {| treenode := treenode w; nodes := nodes w; arrays := f (arrays w);
     fresh := fresh w; engine := engine w; trace := trace w |}.

Definition with_engine (t : T) (w : W) : W :=
  {| treenode := treenode w; nodes := nodes w; arrays := arrays w;
     fresh := fresh w; engine := t; trace := trace w |}.

Definition log (e : Event) (w : W) : W :=
  {| treenode := treenode w; nodes := nodes w; arrays := arrays w;
     fresh := fresh w; engine := engine w; trace := trace w ++ [e] |}.

Definition take_fresh : Eff W nat :=
  fun w => (Ok (fresh w),
            {| treenode := treenode w; nodes := nodes w; arrays := arrays w;
               fresh := S (fresh w); engine := engine w; trace := trace w |}).

(** Modelled from the spec: [getNode(thing)] of [core/node], the node of a
    model instance; anything else has none. *)
Definition getNode (thing : IModel) : Eff W NodeRef :=
  fun w =>
    match treenode w !! thing with
    | Some n => (Ok n, w)
    | None => (fail "element has no Node", w)
    end.

(** Reading the fields of a node object; a well-formed heap has no dangling
    reference. *)
Definition deref (n : NodeRef) : Eff W Node :=
  fun w =>
    match nodes w !! n with
    | Some nd => (Ok nd, w)
    | None => (Throw "TypeError: node is undefined", w)
    end.

(** Modelled from the spec: [node.pathParts] of [core/node], the segments of
    the ancestors from the root down to the node (section 3: the path is the
    join of the ancestor path segments).  The recursion over the parents is
    bounded by [depth]. *)
Fixpoint pathParts_upto (depth : nat) (ns : gmap NodeRef Node) (n : NodeRef)
  : Result (list string) :=
  match depth with
  | O => Throw "RangeError: Maximum call stack size exceeded"
  | S d =>
      match ns !! n with
      | None => Throw "TypeError: node is undefined"
      | Some nd =>
          match parent nd with
          | None => Ok []
          | Some p => ps ← pathParts_upto d ns p; Ok (ps ++ [subpath nd])
          end
      end
  end.

Definition Node_pathParts (n : NodeRef) : Eff W (list string) :=
  fun w => (pathParts_upto (S (size (nodes w))) (nodes w) n, w).

(** Modelled from the spec: [node.path] of [core/node]. *)
Definition Node_path (n : NodeRef) : Eff W string :=
  do parts <- Node_pathParts n; eret (joinJsonPath parts).

(** Modelled from the spec: [node.isRoot] of [core/node]. *)
Definition Node_isRoot (n : NodeRef) : Eff W bool :=
  do nd <- deref n; eret (bool_decide (parent nd = None)).

(** Modelled from the spec: [node.detach()] of [core/node]; the parent
    reference is set to none (section 4.2), which makes the path the root
    path. *)
Definition clear_parent (nd : Node) : Node :=
  {| target := target nd; parent := None; subpath := subpath nd;
     patchListeners := patchListeners nd |}.

Definition Node_detach (n : NodeRef) : Eff W unit :=
  do _ <- deref n; modify (with_nodes (alter clear_parent n)).

(** Modelled from the spec: [node.onPatch(callback)] of [core/node]; the
    callback joins the registry behind the ones already there, and the
    disposer takes it out again (section 4.4). *)
Definition add_listener (id : nat) (cb : PatchCallback) (nd : Node) : Node :=
  {| target := target nd; parent := parent nd; subpath := subpath nd;
     patchListeners := patchListeners nd ++ [(id, cb)] |}.

Definition remove_listener (id : nat) (nd : Node) : Node :=
  {| target := target nd; parent := parent nd; subpath := subpath nd;
     patchListeners := List.filter (fun l => negb (Nat.eqb (fst l) id)) (patchListeners nd) |}.

Definition Node_onPatch (n : NodeRef) (cb : PatchCallback) : Eff W IDisposer :=
  do _ <- deref n;
  do id <- take_fresh;
  do _ <- modify (with_nodes (alter (add_listener id cb) n));
  eret {| disposer_node := n; disposer_id := id |}.

Definition dispose (d : IDisposer) : Eff W unit :=
  modify (with_nodes (alter (remove_listener (disposer_id d)) (disposer_node d))).

(** [arr.push(x)] *)
Definition push (arr : ArrRef) (x : IJsonPatch) (w : W) : W :=
  with_arrays (alter (fun l => l ++ [x]) arr) w.

Definition call (cb : PatchCallback) (p : IJsonPatch) (w : W) : W :=
  match cb with
  | PushTo arr => push arr p w
  end.

(** Modelled from the spec: the delivery of a patch event on a node, whose
    listeners run at once and in registration order (section 5). *)
Definition emitPatch (w : W) (ev : NodeRef * IJsonPatch) : W :=
  match nodes w !! ev.1 with
  | Some nd => fold_left (fun w l => call (snd l) ev.2 w) (patchListeners nd) w
  | None => w
  end.

(** Modelled from the spec: [node.applyPatch(patch)] of [core/node]; the tree
    is mutated, or the patch rejected before any mutation (section 7), and
    every derived patch event is delivered at once. *)
Definition Node_applyPatch (n : NodeRef) (p : IJsonPatch) : Eff W unit :=
  fun w =>
    let w := log (ApplyPatchCall n p) w in
    match engine_applyPatch n p (engine w) with
    | Throw e => (Throw e, w)
    | Ok (t, events) => (Ok tt, fold_left emitPatch events (with_engine t w))
    end.

(** Modelled from the spec: [runInAction(fn)] of [mobx], the reactive
    engine's transaction; one batch around the call, closed also when [fn]
    throws. *)
Definition runInAction {A} (fn : Eff W A) : Eff W A :=
  finally (do _ <- modify (log BatchStart); fn) (log BatchEnd).

(** [arr.forEach(f)]: the length is read once, before the first call; each
    index below it is read when its turn comes, and a missing one is
    skipped. *)
Fixpoint forEach_from (f : IJsonPatch -> Eff W unit) (arr : ArrRef) (i todo : nat)
  : Eff W unit :=
  match todo with
  | O => eret tt
  | S k =>
      fun w =>
        match arrays w !! arr ≫= (fun l => l !! i) with
        | Some x => (do _ <- f x; forEach_from f arr (S i) k) w
        | None => forEach_from f arr (S i) k w
        end
  end.

Definition forEach (f : IJsonPatch -> Eff W unit) (arr : ArrRef) : Eff W unit :=
  fun w => forEach_from f arr 0 (length (default [] (arrays w !! arr))) w.

(** [[]]: a new, empty array. *)
Definition new_array : Eff W ArrRef :=
  do a <- take_fresh;
  do _ <- modify (with_arrays (insert a []));
  eret a.

End Engine.
End Tree.

(** ** [top-level-api.ts] *)

Module TopLevelApi.
Import JsonPatch Tree.

Section Api.
Context {T : Type}.
Variable engine_applyPatch :
  NodeRef -> IJsonPatch -> T -> Result (T * list (NodeRef * IJsonPatch)).

Abbreviation W := (World T).

Definition onPatch (target : IModel) (callback : PatchCallback) : Eff W IDisposer :=
  do node <- getNode target; Node_onPatch node callback.

Definition applyPatch (target : IModel) (patch : IJsonPatch) : Eff W unit :=
  do node <- getNode target; Node_applyPatch engine_applyPatch node patch.

(** The [patches] argument is the array object itself, not a copy of it. *)
Definition applyPatches (target : IModel) (patches : ArrRef) : Eff W unit :=
  do node <- getNode target;
  runInAction (forEach (fun p => Node_applyPatch engine_applyPatch node p) patches).

Record IPatchRecorder := {
  patches : ArrRef;
  recorder_disposer : IDisposer
}.

Definition stop (recorder : IPatchRecorder) : Eff W unit :=
  dispose (recorder_disposer recorder).

Definition replay (recorder : IPatchRecorder) (target : IModel) : Eff W unit :=
  applyPatches target (patches recorder).

Definition recordPatches (subject : IModel) : Eff W IPatchRecorder :=
  do arr <- new_array;
  do disposer <- onPatch subject (PushTo arr);
  eret {| patches := arr; recorder_disposer := disposer |}.

(** [strict] is declared [strict: boolean = false]; [None] is the omitted
    argument. *)
Definition getParent (target : IModel) (strict : option bool) : Eff W Value :=
  let strict := default false strict in
  do node <- getNode target;
  do nd <- deref node;
  match parent nd with
  | Some p => do pd <- deref p; eret (VObject (Tree.target pd))
  | None => eret VNull
  end.

Definition hasParent (target : IModel) (strict : option bool) : Eff W bool :=
  let strict := default false strict in
  do p <- getParent target (Some strict);
  eret (strict_neq_null p).

Definition getPath (target : IModel) : Eff W string :=
  do node <- getNode target; Node_path node.

Definition getPathParts (target : IModel) : Eff W (list string) :=
  do node <- getNode target; Node_pathParts node.

Definition isRoot (target : IModel) : Eff W bool :=
  do node <- getNode target; Node_isRoot node.

Definition detach (thing : IModel) : Eff W IModel :=
  do node <- getNode thing;
  do _ <- Node_detach node;
  eret thing.

End Api.

(** *** The process-wide app state

    [const appState = observable.shallowBox<any>(undefined)]: the binding
    holds the box object for the life of the process; the state that
    changes is what the box contains. *)

Definition appState : Value := VObject 0.

Definition appState_initial : Value := VUndefined.

(** [appState.get()] and [appState.set(v)] *)
Definition box_get : Eff Value Value := gets (fun content => content).
Definition box_set (v : Value) : Eff Value unit := modify (fun _ => v).

(** A factory called with an optional snapshot and an optional environment
    returns the instance it creates, or throws. *)
Definition IFactory := option Json -> option Value -> Result Value.

Definition resetAppState : Eff Value unit :=
  box_set VUndefined.

Definition initializeAppState
    (factory : IFactory) (initialSnapshot : option Json) (environment : option Value)
  : Eff Value unit :=
  do _ <- lift (invariant (negb (ToBoolean appState))
                  "Global app state was already initialized, use 'resetAppState' to reset it");
  do root <- lift (factory initialSnapshot environment);
  box_set root.

Definition getAppState : Eff Value Value :=
  do _ <- lift (invariant (negb (negb (ToBoolean appState)))
                  "Global app state has not been initialized, use 'initializeAppState' for globally shared state");
  box_get.

End TopLevelApi.

(** ** The type system ([core/factories], [types])

    [createFactory] and [types.*] are not among the sources at hand; only
    their tests are.  The model follows section 3 and section 4.1 of the
    specification (descriptors as a tagged tree, validation, instantiation
    with default substitution) and is replayed on the repository's tests
    further down.  A live instance is held as the tree of values its nodes
    own. *)

Module TypeSystem.
Import JsString JsonPatch.

(** *** [JSON.stringify] on plain data *)

Definition hex_digit (n : nat) : ascii :=
  ascii_of_nat (if Nat.ltb n 10 then 48 + n else 87 + n).

Definition escape_char (c : ascii) : string :=
  let n := nat_of_ascii c in
  if Nat.eqb n 34 then backslash +:+ dquote
  else if Nat.eqb n 92 then backslash +:+ backslash
  else if Nat.eqb n 8 then backslash +:+ "b"
  else if Nat.eqb n 9 then backslash +:+ "t"
  else if Nat.eqb n 10 then backslash +:+ "n"
  else if Nat.eqb n 12 then backslash +:+ "f"
  else if Nat.eqb n 13 then backslash +:+ "r"
  else if Nat.ltb n 32
       then backslash +:+ "u00" +:+ String (hex_digit (n / 16)) (String (hex_digit (n mod 16)) "")
  else String c "".

Fixpoint escape_string (s : string) : string :=
  match s with
  | EmptyString => EmptyString
  | String c r => escape_char c +:+ escape_string r
  end.

Definition quote (s : string) : string := dquote +:+ escape_string s +:+ dquote.

(** [Number.MAX_SAFE_INTEGER], 2^53 - 1: up to it an integer is printed digit
    by digit. *)
Definition MAX_SAFE_INTEGER : Z := 9007199254740991.

(** [key in obj], [obj[key]] *)
Fixpoint lookup_key {A} (k : string) (entries : list (string * A)) : option A :=
  match entries with
  | [] => None
  | (k', v) :: rest => if String.eqb k k' then Some v else lookup_key k rest
  end.

(** Modelled from the spec: the values a primitive descriptor accepts. *)
Definition is_primitive (j : Json) : bool :=
  match j with
  | JNull | JBool _ | JNum _ | JFloat _ _ | JStr _ => true
  | JArr _ | JObj _ => false
  end.

(** *** Descriptors *)

(** Modelled from the spec: the descriptor variants of section 3.  A primitive
    carries the default it was inferred from, a shape its display name and
    its fields in declaration order. *)
Inductive TypeDescriptor :=
| Primitive (default : Json)
| ObjectShape (name : string) (fields : list (string * TypeDescriptor))
| ArrayOf (item : TypeDescriptor)
| MapOf (item : TypeDescriptor)
| Union (dispatcher : option (Json -> TypeDescriptor)) (variants : list TypeDescriptor)
| WithDefault (inner : TypeDescriptor) (default : Json).

(** Modelled from the spec: the tree of values behind a live instance, one
    node per object, array and map. *)
Inductive Instance :=
| IPrimitive (v : Json)
| IObject (factoryName : string) (props : list (string * Instance))
| IArray (items : list Instance)
| IMap (entries : list (string * Instance)).

(** Modelled from the spec: [node.snapshot] of [core/node], the plain value
    of a node and its descendants. *)
Fixpoint Node_snapshot (i : Instance) : Json :=
  match i with
  | IPrimitive v => v
  | IObject _ props => JObj (map (fun p => (p.1, Node_snapshot p.2)) props)
  | IArray items => JArr (map Node_snapshot items)
  | IMap entries => JObj (map (fun p => (p.1, Node_snapshot p.2)) entries)
  end.

(** [getSnapshot(target)] is [getNode(target).snapshot]; an instance of this
    model is its own node. *)
Definition getSnapshot (target : Instance) : Json := Node_snapshot target.

Fixpoint mapM {A B} (f : A -> Result B) (l : list A) : Result (list B) :=
  match l with
  | [] => Ok []
  | a :: rest => b ← f a; bs ← mapM f rest; Ok (b :: bs)
  end.

(** Modelled from the spec: the snapshot a factory starts from when the caller
    gives none, the declared default or the empty container. *)
Definition initial_snapshot (t : TypeDescriptor) : Json :=
  match t with
  | Primitive d => d
  | ObjectShape _ _ => JObj []
  | ArrayOf _ => JArr []
  | MapOf _ => JObj []
  | Union _ _ => JObj []
  | WithDefault _ d => d
  end.

(** Modelled from the spec: [Factory.is(snapshot)], does the snapshot fit the
    descriptor?  An object is validated with its missing fields defaulted
    (section 4.2): it may not bring an undeclared key, and every declared
    field must accept the value given for it, or its own default where none
    is given.  A union with a dispatcher asks the variant the dispatcher
    chooses; a union without one accepts what any of its variants accepts,
    as the repository's test of exact union types has it
    ([Plane.is(Square())] holds although [Box] accepts a square too). *)
Fixpoint is_ (t : TypeDescriptor) (s : Json) {struct t} : bool :=
  match t with
  | Primitive _ => is_primitive s
  | ObjectShape _ fields =>
      match s with
      | JObj entries =>
          forallb (fun e => existsb (fun f => String.eqb e.1 f.1) fields) entries
          && (fix all (fs : list (string * TypeDescriptor)) : bool :=
                match fs with
                | [] => true
                | (k, ft) :: fs' =>
                    is_ ft (default (initial_snapshot ft) (lookup_key k entries)) && all fs'
                end) fields
      | _ => false
      end
  | ArrayOf item =>
      match s with
      | JArr items => forallb (is_ item) items
      | _ => false
      end
  | MapOf item =>
      match s with
      | JObj entries => forallb (fun e => is_ item e.2) entries
      | _ => false
      end
  | Union (Some dispatch) _ => is_ (dispatch s) s
  | Union None variants => existsb (fun v => is_ v s) variants
  | WithDefault inner _ => is_ inner s
  end.

(** Modelled from the spec: [Factory.is(value)] on a live instance, which is
    validated against the descriptor as its snapshot is (section 4.1: the
    typing is structural, not nominal). *)
Definition is_instance (t : TypeDescriptor) (value : Instance) : bool :=
  is_ t (Node_snapshot value).

Section Naming.
(** The notation for a map of [T], left open by the specification. *)
Variable map_notation : string -> string.

(** The text [Number.prototype.toString] gives the number [m * 2^e] where
    that is not a safe integer: the shortest digits that read back as the
    same double, in exponent notation from [10^21] on.  Left open: the model
    does no floating-point arithmetic, and nothing below depends on it. *)
Variable float_notation : Z -> Z -> string.

(** The order in which a union without dispatcher holds the variants it was
    declared with.  The specification says declaration order; the
    repository's one test that shows the order declares
    [types.union(Square, Box)] and finds [Box | Square].  Left open. *)
Variable variant_order : list TypeDescriptor -> list TypeDescriptor.

Definition number_to_string (n : Z) : string :=
  if Z.leb (Z.abs n) MAX_SAFE_INTEGER
  then NilEmpty.string_of_int (Z.to_int n)
  else float_notation n 0.

Fixpoint stringify (j : Json) : string :=
  match j with
  | JNull => "null"
  | JBool true => "true"
  | JBool false => "false"
  | JNum n => number_to_string n
  | JFloat m e => float_notation m e
  | JStr s => quote s
  | JArr items => "[" +:+ join "," (map stringify items) +:+ "]"
  | JObj entries =>
      "{" +:+ join "," (map (fun e => quote e.1 +:+ ":" +:+ stringify e.2) entries) +:+ "}"
  end.

(** Modelled from the spec: the display name of a factory, as the messages
    expected by the repository's tests show it. *)
Fixpoint factoryName (t : TypeDescriptor) : string :=
  match t with
  | Primitive _ => "primitive"
  | ObjectShape name _ => name
  | ArrayOf item => factoryName item +:+ "[]"
  | MapOf item => map_notation (factoryName item)
  | Union _ variants => join " | " (map factoryName variants)
  | WithDefault inner _ => factoryName inner
  end.

(** Modelled from the spec: the shape signature shown in validation errors
    (section 4.1). *)
Fixpoint describe (t : TypeDescriptor) : string :=
  match t with
  | Primitive _ => "primitive"
  | ObjectShape _ fields =>
      "{ " +:+ join "; " (map (fun f => f.1 +:+ ": " +:+ describe f.2) fields) +:+ " }"
  | ArrayOf item => describe item +:+ "[]"
  | MapOf item => map_notation (describe item)
  | Union _ variants => join " | " (map describe variants)
  | WithDefault inner _ => describe inner
  end.

(** Modelled from the spec: the text of a validation error (section 4.1) and
    of an ambiguous union, as the repository's tests expect them behind the
    library tag.  The candidates an ambiguous union names are its variants:
    the error is also raised when no variant accepts (section 4.1). *)
Definition not_assignable (what : string) (s : Json) (t : TypeDescriptor) : string :=
  what +:+ " " +:+ stringify s +:+ " is not assignable to type " +:+ factoryName t
  +:+ ". Expected " +:+ dquote +:+ describe t +:+ dquote.

Definition ambiguous (s : Json) (t : TypeDescriptor) : string :=
  "Ambiguos snapshot " +:+ stringify s +:+ " for union " +:+ factoryName t
  +:+ ". Please provide a dispatch in the union declaration.".

(** Modelled from the spec: instantiation of [core/factories]; validate,
    default the missing fields, build the children (section 4.2); a union
    without dispatcher is built by the one variant that accepts, and is
    ambiguous with none or several (section 4.1).  The messages are those of
    the repository's tests. *)
Fixpoint instantiate (t : TypeDescriptor) (s : Json) {struct t} : Result Instance :=
  match t with
  | Primitive _ =>
      invariant (is_primitive s) (not_assignable "Snapshot" s t);;
      Ok (IPrimitive s)
  | ObjectShape name fields =>
      invariant (is_ t s) (not_assignable "Snapshot" s t);;
      match s with
      | JObj entries =>
          props ←
            (fix build (fs : list (string * TypeDescriptor)) : Result (list (string * Instance)) :=
               match fs with
               | [] => Ok []
               | (k, ft) :: fs' =>
                   child ← instantiate ft (default (initial_snapshot ft) (lookup_key k entries));
                   rest ← build fs';
                   Ok ((k, child) :: rest)
               end) fields;
          Ok (IObject name props)
      | _ => fail (not_assignable "Snapshot" s t)
      end
  | ArrayOf item =>
      match s with
      | JArr items => children ← mapM (instantiate item) items; Ok (IArray children)
      | _ => fail (not_assignable "Snapshot" s t)
      end
  | MapOf item =>
      match s with
      | JObj entries =>
          children ← mapM (fun e => child ← instantiate item e.2; Ok (e.1, child)) entries;
          Ok (IMap children)
      | _ => fail (not_assignable "Snapshot" s t)
      end
  | Union (Some dispatch) _ => instantiate (dispatch s) s
  | Union None variants =>
      if Nat.eqb (length (List.filter (fun v => is_ v s) variants)) 1
      then (fix pick (vs : list TypeDescriptor) : Result Instance :=
              match vs with
              | [] => fail (ambiguous s t)
              | v :: vs' => if is_ v s then instantiate v s else pick vs'
              end) variants
      else fail (ambiguous s t)
  | WithDefault inner _ => instantiate inner s
  end.

(** Modelled from the spec: the call [Factory(snapshot?)]. *)
Definition Factory (t : TypeDescriptor) (snapshot : option Json) : Result Instance :=
  instantiate t (default (initial_snapshot t) snapshot).

(** Modelled from the spec: what a property of the object handed to
    [createFactory] may be, a primitive default, a nested factory, or a
    function (an action, which is no part of the state). *)
Inductive PropDefault :=
| PrimitiveDefault (v : Json)
| FactoryDefault (t : TypeDescriptor)
| FunctionDefault.

Fixpoint shape_of (props : list (string * PropDefault)) : list (string * TypeDescriptor) :=
  match props with
  | [] => []
  | (k, PrimitiveDefault v) :: rest => (k, Primitive v) :: shape_of rest
  | (k, FactoryDefault t) :: rest => (k, t) :: shape_of rest
  | (_, FunctionDefault) :: rest => shape_of rest
  end.

(** Modelled from the spec: [createFactory(name?, shapeDefaults)]. *)
Definition createFactory (name : option string) (shapeDefaults : list (string * PropDefault))
  : TypeDescriptor :=
  ObjectShape (default "unnamed-object-factory" name) (shape_of shapeDefaults).

(** Modelled from the spec: [types.array(type)] and [types.map(type)]. *)
Definition types_array (item : TypeDescriptor) : TypeDescriptor := ArrayOf item.

Definition types_map (item : TypeDescriptor) : TypeDescriptor := MapOf item.

(** Modelled from the spec: [types.union(dispatchOrType, ...otherTypes)].  The
    first argument is the dispatcher or a variant, as the two declarations of
    the repository's union test show.  Without a dispatcher the union holds
    all the variants it was declared with, in the order [variant_order]
    gives them. *)
Definition types_union
    (dispatchOrType : (Json -> TypeDescriptor) + TypeDescriptor)
    (otherTypes : list TypeDescriptor) : TypeDescriptor :=
  match dispatchOrType with
  | inl dispatch => Union (Some dispatch) otherTypes
  | inr first => Union None (variant_order (first :: otherTypes))
  end.

(** Modelled from the spec: [types.withDefault(type, defaultSnapshot)]; the
    default is validated when the type is defined (section 4.1). *)
Definition types_withDefault (t : TypeDescriptor) (defaultSnapshot : Json)
  : Result TypeDescriptor :=
  invariant (is_ t defaultSnapshot) (not_assignable "Default value" defaultSnapshot t);;
  Ok (WithDefault t defaultSnapshot).

End Naming.
End TypeSystem.


(** ** Readings of the specification

    Definitions that follow the words of the specification rather than the
    code; the facts below compare the two. *)

Module Readings.
Import JsString JsonPatch Tree TypeSystem.


(** Escaping, one code unit at a time. *)
Fixpoint escape_units (s : string) : string :=
  match s with
  | EmptyString => EmptyString
  | String c r =>
      if Ascii.eqb c "~" then String "~" (String "1" (escape_units r))
      else if Ascii.eqb c "/" then String "~" (String "0" (escape_units r))
      else String c (escape_units r)
  end.

(** What escaping and unescaping a segment yields instead of the segment. *)
Fixpoint slashes_to_backslashes (s : string) : string :=
  match s with
  | EmptyString => EmptyString
  | String c r =>
      if Ascii.eqb c "/" then String (ascii_of_nat 92) (slashes_to_backslashes r)
      else String c (slashes_to_backslashes r)
  end.

Fixpoint has_slash (s : string) : bool :=
  match s with
  | EmptyString => false
  | String c r => Ascii.eqb c "/" || has_slash r
  end.

Fixpoint has_tilde (s : string) : bool :=
  match s with
  | EmptyString => false
  | String c r => Ascii.eqb c "~" || has_tilde r
  end.

(** Replaying a sequence fixed beforehand: its patches applied to one node,
    in order. *)
Fixpoint apply_in_order {T}
    (engine_applyPatch : NodeRef -> IJsonPatch -> T -> Result (T * list (NodeRef * IJsonPatch)))
    (node : NodeRef) (ps : list IJsonPatch) : Eff (World T) unit :=
  match ps with
  | [] => eret tt
  | p :: rest =>
      do _ <- Node_applyPatch engine_applyPatch node p;
      apply_in_order engine_applyPatch node rest
  end.

(** What one call may do to the world: the log gains the entries [es], and
    every array keeps what it held, with more at its end at most. *)
Definition extends {T} (es : list Event) (w w' : World T) : Prop :=
  treenode w' = treenode w /\
  trace w' = trace w ++ es /\
  forall arr l, arrays w !! arr = Some l -> exists more, arrays w' !! arr = Some (l ++ more).

(** The calls a program can make on the app state; a program is a sequence
    of them, run from the state the process starts in. *)
Inductive AppStateCall :=
| CallReset
| CallInitialize (factory : TopLevelApi.IFactory)
    (initialSnapshot : option Json) (environment : option Value)
| CallGet.

Definition run_call (content : Value) (c : AppStateCall) : Value :=
  match c with
  | CallReset => (TopLevelApi.resetAppState content).2
  | CallInitialize factory snapshot environment =>
      (TopLevelApi.initializeAppState factory snapshot environment content).2
  | CallGet => (TopLevelApi.getAppState content).2
  end.

Definition run_calls (cs : list AppStateCall) : Value :=
  fold_left run_call cs TopLevelApi.appState_initial.

(** Does this registration push to the array [arr]? *)
Definition pushes_to (arr : ArrRef) (l : nat * PatchCallback) : bool :=
  match l.2 with
  | PushTo a => Nat.eqb a arr
  end.

(** A node [k] steps below a root. *)
Inductive depth_of (ns : gmap NodeRef Node) : NodeRef -> nat -> Prop :=
| depth_root n nd :
    ns !! n = Some nd -> parent nd = None -> depth_of ns n 0
| depth_child n nd p k :
    ns !! n = Some nd -> parent nd = Some p -> depth_of ns p k -> depth_of ns n (S k).



(** The pieces of validation, instantiation and filling that work on one
    field or one variant at a time. *)
Definition declared (fields : list (string * TypeDescriptor)) (e : string * Json) : bool :=
  existsb (fun f => String.eqb e.1 f.1) fields.





End Readings.

(** ** The repository's tests, as data *)

Module Tests.
Import JsString JsonPatch Tree TypeSystem.

(** No test declares a map; any notation does. *)
Definition map_notation (name : string) : string := name.

(** No test prints a number beyond the safe integers; any notation does. *)
Definition float_notation (m e : Z) : string := "".

(** The order in which a union holds its variants: the one test that shows it
    declares two variants and finds them swapped; every other declaration is
    left in declaration order, as the specification has it. *)
Definition variant_order (declared : list TypeDescriptor) : list TypeDescriptor :=
  match declared with
  | [a; b] => [b; a]
  | _ => declared
  end.

(** [test/union.ts] *)
Definition Box : TypeDescriptor :=
  createFactory (Some "Box")
    [("width", PrimitiveDefault (JNum 0)); ("height", PrimitiveDefault (JNum 0))].

Definition Square : TypeDescriptor :=
  createFactory (Some "Square") [("width", PrimitiveDefault (JNum 0))].

(** [types.union(Square, Box)] *)
Definition Plane : TypeDescriptor := types_union variant_order (inr Square) [Box].

(** [{width: 2}] *)
Definition width_2 : Json := JObj [("width", JNum 2)].

Definition union_test_message : string :=
  "[mobx-state-tree] Ambiguos snapshot {" +:+ dquote +:+ "width" +:+ dquote
  +:+ ":2} for union Box | Square. Please provide a dispatch in the union declaration.".

(** [types.union(snapshot => snapshot && 'height' in snapshot ? Box : Square,
    Box, Square)]; the dispatcher as it acts on objects and on a missing
    snapshot. *)
Definition by_height (snapshot : Json) : TypeDescriptor :=
  match snapshot with
  | JObj entries =>
      match lookup_key "height" entries with
      | Some _ => Box
      | None => Square
      end
  | _ => Square
  end.

Definition DispatchPlane : TypeDescriptor :=
  types_union variant_order (inl by_height) [Box; Square].

Definition Size : TypeDescriptor :=
  createFactory (Some "Size")
    [("width", PrimitiveDefault (JNum 0)); ("height", PrimitiveDefault (JNum 0))].

Definition Picture : TypeDescriptor :=
  createFactory (Some "Picture")
    [("url", PrimitiveDefault (JStr "")); ("size", FactoryDefault Size)].

Definition SquareOfSize : TypeDescriptor :=
  createFactory (Some "Square") [("size", PrimitiveDefault (JNum 0))].

Definition PictureOrSquare : TypeDescriptor :=
  types_union variant_order (inr Picture) [SquareOfSize].

(** [{size: {width: 0, height: 0}}] *)
Definition sized : Json := JObj [("size", JObj [("width", JNum 0); ("height", JNum 0)])].





(** [test/with-default.ts] *)
Definition Row : TypeDescriptor :=
  createFactory None
    [("name", PrimitiveDefault (JStr "")); ("quantity", PrimitiveDefault (JNum 0))].

Definition RowWithAction : TypeDescriptor :=
  createFactory None
    [("name", PrimitiveDefault (JStr "")); ("quantity", PrimitiveDefault (JNum 0));
     ("wrongProp", FunctionDefault)].

(** [[{name: 'test'}]] and [[{wrongProp: true}]] *)
Definition rows_test : Json := JArr [JObj [("name", JStr "test")]].
Definition rows_wrong : Json := JArr [JObj [("wrongProp", JBool true)]].

(** [createFactory({rows: types.withDefault(types.array(Row), [{name: 'test'}])})] *)
Definition RowsWithDefault : TypeDescriptor := WithDefault (types_array Row) rows_test.

Definition Rows : TypeDescriptor :=
  createFactory None [("rows", FactoryDefault RowsWithDefault)].

(** [{rows: [{name: 'snapshot', quantity: 0}]}] *)
Definition rows_snapshot : Json :=
  JObj [("rows", JArr [JObj [("name", JStr "snapshot"); ("quantity", JNum 0)]])].

Definition with_default_test_message : string :=
  "[mobx-state-tree] Default value [{" +:+ dquote +:+ "wrongProp" +:+ dquote
  +:+ ":true}] is not assignable to type unnamed-object-factory[]. Expected "
  +:+ dquote +:+ "{ name: primitive; quantity: primitive }[]" +:+ dquote.

(** A world with two roots, an engine that accepts every patch and fires it
    on the node it is applied to, and a recorder on the first root that has
    seen two patches. *)
Definition echo_engine (n : NodeRef) (p : IJsonPatch) (t : unit)
  : Result (unit * list (NodeRef * IJsonPatch)) := Ok (t, [(n, p)]).

Definition root_node (instance : IModel) : Node :=
  {| target := instance; parent := None; subpath := ""; patchListeners := [] |}.

Definition child_node (instance : IModel) (above : NodeRef) (segment : string) : Node :=
  {| target := instance; parent := Some above; subpath := segment; patchListeners := [] |}.

Definition two_trees : World unit :=
  {| treenode := <[1 := 10]> (<[2 := 20]> (<[3 := 30]> ∅));
     nodes := <[10 := root_node 1]> (<[20 := root_node 2]> (<[30 := child_node 3 10 "a/b"]> ∅));
     arrays := ∅; fresh := 0; engine := tt; trace := [] |}.

Definition set_width (n : Z) : IJsonPatch :=
  {| op := OpReplace; path := "/width"; value := Some (JNum n) |}.

Definition recording : Eff (World unit) TopLevelApi.IPatchRecorder :=
  do recorder <- TopLevelApi.recordPatches 1;
  do _ <- TopLevelApi.applyPatch echo_engine 1 (set_width 3);
  do _ <- TopLevelApi.applyPatch echo_engine 1 (set_width 4);
  eret recorder.

Definition recorded_world : World unit := (recording two_trees).2.

Definition the_recorder : TopLevelApi.IPatchRecorder :=
  {| TopLevelApi.patches := 0;
     TopLevelApi.recorder_disposer := {| disposer_node := 10; disposer_id := 1 |} |}.

(** An engine that accepts replacements and additions and rejects removals,
    and a world whose array [5] holds a removal between two replacements. *)
Definition no_removal_engine (n : NodeRef) (p : IJsonPatch) (t : nat)
  : Result (nat * list (NodeRef * IJsonPatch)) :=
  match op p with
  | OpRemove => fail ("Cannot remove " +:+ path p)
  | _ => Ok (S t, [(n, p)])
  end.

Definition remove_depth : IJsonPatch :=
  {| op := OpRemove; path := "/depth"; value := None |}.

Definition counting_world : World nat :=
  {| treenode := <[1 := 10]> ∅;
     nodes := <[10 := root_node 1]> ∅;
     arrays := <[5 := [set_width 3; remove_depth; set_width 4]]> ∅;
     fresh := 6; engine := 0; trace := [] |}.

End Tests.

(** * Facts *)

(** ** The path codec *)

Section PathCodec.
Import JsString JsonPatch Readings.

Lemma append_cons (c : ascii) (s t : string) : String c s +:+ t = String c (s +:+ t).
Proof. reflexivity. Qed.

Lemma append_empty (t : string) : "" +:+ t = t.
Proof. reflexivity. Qed.

Ltac push_append := rewrite ?append_cons, ?append_empty.

Lemma replace_all_unit_cons (p : ascii) (rep : string) (c : ascii) (r : string) :
  replace_all (String p "") rep (String c r) =
  if Ascii.eqb p c then rep +:+ replace_all (String p "") rep r
  else String c (replace_all (String p "") rep r).
Proof.
  unfold replace_all. simpl. destruct (Ascii.eqb p c); reflexivity.
Qed.

Lemma replace_all_nil (pat rep : string) : replace_all pat rep "" = "".
Proof. reflexivity. Qed.

Lemma escapeJsonPath_units (s : string) : escapeJsonPath s = escape_units s.
Proof.
  unfold escapeJsonPath.
  induction s as [|c r IH]; [reflexivity|].
  rewrite replace_all_unit_cons. simpl escape_units.
  rewrite (Ascii.eqb_sym "~" c).
  destruct (Ascii.eqb_spec c "~") as [->|Hc].
  - push_append. rewrite !replace_all_unit_cons. simpl. now rewrite IH.
  - rewrite replace_all_unit_cons, (Ascii.eqb_sym "/" c).
    destruct (Ascii.eqb c "/"); push_append; now rewrite IH.
Qed.

Lemma replace_pair_miss (a b : ascii) (rep : string) (c : ascii) (r : string) :
  Ascii.eqb a c = false ->
  replace_all (String a (String b "")) rep (String c r) =
  String c (replace_all (String a (String b "")) rep r).
Proof.
  intros H. unfold replace_all. simpl. now rewrite H.
Qed.

Lemma replace_pair_half (a b : ascii) (rep : string) (c : ascii) (r : string) :
  Ascii.eqb b c = false ->
  replace_all (String a (String b "")) rep (String a (String c r)) =
  String a (replace_all (String a (String b "")) rep (String c r)).
Proof.
  intros H. unfold replace_all. simpl. rewrite Ascii.eqb_refl, H. reflexivity.
Qed.

Lemma replace_pair_hit (a b : ascii) (rep : string) (r : string) :
  replace_all (String a (String b "")) rep (String a (String b r)) =
  rep +:+ replace_all (String a (String b "")) rep r.
Proof.
  unfold replace_all. simpl. rewrite !Ascii.eqb_refl. reflexivity.
Qed.

Lemma unescape_escape_units (s : string) :
  unescapeJsonPath (escape_units s) = slashes_to_backslashes s.
Proof.
  unfold unescapeJsonPath, backslash.
  induction s as [|c r IH]; [reflexivity|].
  simpl.
  destruct (Ascii.eqb_spec c "~") as [->|Htilde].
  - simpl. rewrite replace_pair_half by reflexivity.
    rewrite (replace_pair_miss "~" "0" _ "1") by reflexivity.
    rewrite replace_pair_hit. push_append. now rewrite IH.
  - destruct (Ascii.eqb_spec c "/") as [->|Hslash].
    + rewrite replace_pair_hit. push_append.
      rewrite replace_pair_miss by reflexivity. now rewrite IH.
    + assert (Ascii.eqb "~" c = false) as Hm
        by (apply Ascii.eqb_neq; congruence).
      rewrite !replace_pair_miss by exact Hm. now rewrite IH.
Qed.

Lemma unescape_escape (s : string) :
  unescapeJsonPath (escapeJsonPath s) = slashes_to_backslashes s.
Proof. rewrite escapeJsonPath_units. apply unescape_escape_units. Qed.

Lemma slashes_to_backslashes_id (s : string) :
  has_slash s = false -> slashes_to_backslashes s = s.
Proof.
  induction s as [|c r IH]; simpl; [reflexivity|].
  destruct (Ascii.eqb c "/"); simpl; [discriminate|].
  intros H. now rewrite IH.
Qed.

Lemma slashes_to_backslashes_changes (s : string) :
  has_slash s = true -> slashes_to_backslashes s <> s.
Proof.
  induction s as [|c r IH]; simpl; [discriminate|].
  destruct (Ascii.eqb_spec c "/") as [->|Hc]; simpl.
  - intros _ H. discriminate H.
  - intros H E. injection E as E. now apply IH.
Qed.

(** The round trip holds exactly for the segments without a slash. *)
Lemma unescape_escape_iff (s : string) :
  unescapeJsonPath (escapeJsonPath s) = s <-> has_slash s = false.
Proof.
  rewrite unescape_escape. split.
  - intros H. destruct (has_slash s) eqn:E; [|reflexivity].
    now apply slashes_to_backslashes_changes in E.
  - apply slashes_to_backslashes_id.
Qed.

Lemma has_slash_escape_units (s : string) : has_slash (escape_units s) = false.
Proof.
  induction s as [|c r IH]; [reflexivity|]. simpl.
  destruct (Ascii.eqb_spec c "~") as [->|Ht]; [exact IH|].
  destruct (Ascii.eqb c "/") eqn:Es; simpl; [exact IH|]. now rewrite Es.
Qed.

Lemma split_no_slash (s : string) : has_slash s = false -> split "/" s = [s].
Proof.
  induction s as [|c r IH]; [reflexivity|]. simpl.
  destruct (Ascii.eqb c "/"); [discriminate|]. simpl. intros H. now rewrite IH.
Qed.

Lemma split_append_slash (p r : string) :
  has_slash p = false -> split "/" (p +:+ String "/" r) = p :: split "/" r.
Proof.
  induction p as [|c p IH]; [reflexivity|]. rewrite append_cons. cbn [split has_slash].
  destruct (Ascii.eqb c "/"); [discriminate|]. cbn [orb]. intros H. now rewrite IH.
Qed.

Lemma split_join (parts : list string) :
  parts <> [] ->
  Forall (fun p => has_slash p = false) parts ->
  split "/" (join "/" parts) = parts.
Proof.
  intros Hne Hall. induction Hall as [|p rest Hp Hrest IH]; [now elim Hne|].
  destruct rest as [|q rest].
  - simpl. now apply split_no_slash.
  - change (join "/" (p :: q :: rest)) with (p +:+ String "/" (join "/" (q :: rest))).
    rewrite split_append_slash by exact Hp. now rewrite IH.
Qed.

(** Splitting a joined path yields the segments with every slash turned into
    a backslash. *)
Lemma splitJsonPath_joinJsonPath (segs : list string) :
  splitJsonPath (joinJsonPath segs) = Ok (map slashes_to_backslashes segs).
Proof.
  destruct segs as [|s segs]; [reflexivity|].
  unfold joinJsonPath, splitJsonPath.
  change ("/" +:+ ?x) with (String "/" x). cbn [String.eqb first_is substr1].
  rewrite Ascii.eqb_refl.
  cbn [invariant mbind Result_bind Utils.bind].
  rewrite split_join.
  - now rewrite map_map, (map_ext _ _ unescape_escape).
  - discriminate.
  - apply Forall_forall. intros x Hx. apply list_elem_of_In, in_map_iff in Hx as (y & <- & _).
    rewrite escapeJsonPath_units. apply has_slash_escape_units.
Qed.

Lemma splitJsonPath_joinJsonPath_iff (segs : list string) :
  splitJsonPath (joinJsonPath segs) = Ok segs <->
  Forall (fun s => has_slash s = false) segs.
Proof.
  rewrite splitJsonPath_joinJsonPath. split.
  - intros H. injection H as H. induction segs as [|s segs IH]; [constructor|].
    cbn [map] in H. injection H as Hs Hrest. constructor; [|now apply IH].
    apply unescape_escape_iff. now rewrite unescape_escape.
  - intros H. f_equal. induction H as [|s segs Hs _ IH]; [reflexivity|].
    cbn [map]. now rewrite IH, slashes_to_backslashes_id.
Qed.



(** Claim C3.  Escaping and then unescaping a segment is meant to give the
    segment back, and splitting a joined path to give its segments back.  The
    segment [/] is escaped to [~0], which unescaping turns into a backslash:
    neither round trip returns what it was given. *)
Theorem escape_unescape_slash_not_inverse :
  escapeJsonPath "/" = "~0" /\
  unescapeJsonPath (escapeJsonPath "/") = backslash /\
  unescapeJsonPath (escapeJsonPath "/") <> "/" /\
  splitJsonPath (joinJsonPath ["/"]) = Ok [backslash] /\
  splitJsonPath (joinJsonPath ["/"]) <> Ok ["/"].
Proof.
  repeat split; try reflexivity; vm_compute; discriminate.
Qed.

End PathCodec.

(** ** The app state *)

Section AppStateFacts.
Import TopLevelApi Readings.

Lemma appState_binding_truthy : ToBoolean appState = true.
Proof. reflexivity. Qed.

Lemma initializeAppState_always_throws
    (factory : IFactory) (snapshot : option JsonPatch.Json) (env : option Value) (content : Value) :
  initializeAppState factory snapshot env content =
  (Throw "[mobx-state-tree] Global app state was already initialized, use 'resetAppState' to reset it",
   content).
Proof. reflexivity. Qed.

Lemma getAppState_never_throws (content : Value) :
  getAppState content = (Ok content, content).
Proof. reflexivity. Qed.

(** No sequence of calls ever sets the slot. *)
Lemma slot_stays_unset (cs : list AppStateCall) : run_calls cs = VUndefined.
Proof.
  unfold run_calls. change appState_initial with VUndefined.
  induction cs as [|c cs IH]; [reflexivity|].
  cbn [fold_left]. now destruct c.
Qed.

(** Claim C1.  [initializeAppState] is meant to succeed and to store the new
    root while the slot is unset, and to throw only once it is set.  Its guard
    tests the box, an object and therefore truthy, instead of what the box
    holds: on the unset slot the call throws, whatever the factory, and the
    slot stays unset. *)
Theorem initializeAppState_throws_on_unset_slot
    (factory : IFactory) (snapshot : option JsonPatch.Json) (env : option Value) :
  initializeAppState factory snapshot env appState_initial =
  (Throw "[mobx-state-tree] Global app state was already initialized, use 'resetAppState' to reset it",
   appState_initial).
Proof. apply initializeAppState_always_throws. Qed.

(** Claim C2.  [getAppState] is meant to throw while the slot is unset.  Its
    guard tests the box as well: on the unset slot, at the start of the
    process or after [resetAppState], the call does not throw and returns
    [undefined]. *)
Theorem getAppState_returns_undefined_on_unset_slot :
  getAppState appState_initial = (Ok VUndefined, appState_initial) /\
  forall content : Value,
    (do _ <- resetAppState; getAppState) content = (Ok VUndefined, VUndefined).
Proof. split; reflexivity. Qed.

End AppStateFacts.

(** ** Parents, paths and detaching *)

Section TreeFacts.
Import JsonPatch Tree TopLevelApi.
Context {T : Type}.
Implicit Types (w : World T) (target v : IModel) (strict : option bool).

Lemma getParent_strict_irrelevant w target strict strict' :
  getParent target strict w = getParent target strict' w.
Proof. reflexivity. Qed.

Lemma hasParent_unfold w target strict :
  hasParent target strict w =
  match getParent target strict w with
  | (Ok p, w') => (Ok (strict_neq_null p), w')
  | (Throw e, w') => (Throw e, w')
  end.
Proof. reflexivity. Qed.

Lemma strict_neq_null_true (p : Value) : strict_neq_null p = true <-> p <> VNull.
Proof. destruct p; simpl; split; congruence. Qed.

(** Claim C9.  [hasParent(target, strict)] returns [true] if and only if
    [getParent(target, strict)] returns a value other than [null]. *)
Theorem hasParent_iff_getParent_non_null w target strict :
  (hasParent target strict w).1 = Ok true <->
  exists p, (getParent target strict w).1 = Ok p /\ p <> VNull.
Proof.
  rewrite hasParent_unfold.
  destruct (getParent target strict w) as [[p|e] w']; simpl.
  - split.
    + intros H. exists p. split; [reflexivity|].
      apply strict_neq_null_true. congruence.
    + intros (q & Hq & Hnn). injection Hq as ->.
      apply strict_neq_null_true in Hnn. now rewrite Hnn.
  - split; [discriminate|]. intros (q & Hq & _). discriminate.
Qed.

(** Claim C10.  The [strict] argument has no effect: [getParent] gives the
    same outcome for [true], for [false] and for the omitted argument, and so
    does [hasParent]. *)
Theorem getParent_hasParent_ignore_strict w target :
  getParent target (Some true) w = getParent target (Some false) w /\
  getParent target None w = getParent target (Some false) w /\
  hasParent target (Some true) w = hasParent target (Some false) w /\
  hasParent target None w = hasParent target (Some false) w.
Proof. repeat split; reflexivity. Qed.

Lemma nodes_with_nodes f w : nodes (with_nodes f w) = f (nodes w).
Proof. reflexivity. Qed.

Lemma treenode_with_nodes f w : treenode (with_nodes f w) = treenode w.
Proof. reflexivity. Qed.

Lemma detach_run w v n nd :
  treenode w !! v = Some n -> nodes w !! n = Some nd ->
  detach v w = (Ok v, with_nodes (alter clear_parent n) w).
Proof.
  intros Hv Hn. unfold detach, ebind, getNode, Node_detach, ebind, deref, modify, eret.
  now rewrite Hv, Hn.
Qed.

Lemma getParent_root w v n nd strict :
  treenode w !! v = Some n -> nodes w !! n = Some nd -> parent nd = None ->
  getParent v strict w = (Ok VNull, w).
Proof.
  intros Hv Hn Hp. unfold getParent, ebind, getNode, deref, eret.
  now rewrite Hv, Hn, Hp.
Qed.

Lemma getPath_root w v n nd :
  treenode w !! v = Some n -> nodes w !! n = Some nd -> parent nd = None ->
  getPath v w = (Ok "", w).
Proof.
  intros Hv Hn Hp.
  unfold getPath, ebind, getNode, Node_path, ebind, Node_pathParts, eret.
  rewrite Hv. simpl. now rewrite Hn, Hp.
Qed.

Lemma hasParent_root w v n nd strict :
  treenode w !! v = Some n -> nodes w !! n = Some nd -> parent nd = None ->
  hasParent v strict w = (Ok false, w).
Proof.
  intros Hv Hn Hp. rewrite hasParent_unfold.
  now rewrite (getParent_root w v n nd strict Hv Hn Hp).
Qed.

Lemma isRoot_root w v n nd :
  treenode w !! v = Some n -> nodes w !! n = Some nd -> parent nd = None ->
  isRoot v w = (Ok true, w).
Proof.
  intros Hv Hn Hp. unfold isRoot, ebind, getNode, Node_isRoot, ebind, deref, eret.
  now rewrite Hv, Hn, Hp.
Qed.

(** Detaching touches one node, and only its parent link. *)
Lemma detach_frame w v n nd :
  treenode w !! v = Some n -> nodes w !! n = Some nd ->
  forall w', detach v w = (Ok v, w') ->
    treenode w' = treenode w /\
    nodes w' !! n = Some (clear_parent nd) /\
    forall m, m <> n -> nodes w' !! m = nodes w !! m.
Proof.
  intros Hv Hn w' H. rewrite (detach_run w v n nd Hv Hn) in H. injection H as <-.
  split; [reflexivity|]. split.
  - now rewrite nodes_with_nodes, lookup_alter_eq, Hn.
  - intros m Hm. now rewrite nodes_with_nodes, lookup_alter_ne.
Qed.

(** Claim C8.  For a model value [v], [detach(v)] returns [v] itself, and
    afterwards [getParent(v)] returns [null], with any [strict], and
    [getPath(v)] returns the root path, the empty string. *)
Theorem detach_returns_same_value_now_root w v n :
  treenode w !! v = Some n -> is_Some (nodes w !! n) ->
  exists w',
    detach v w = (Ok v, w') /\
    (forall strict, getParent v strict w' = (Ok VNull, w')) /\
    getPath v w' = (Ok "", w').
Proof.
  intros Hv [nd Hn].
  exists (with_nodes (alter clear_parent n) w).
  assert (nodes (with_nodes (alter clear_parent n) w) !! n = Some (clear_parent nd)) as Hn'.
  { rewrite nodes_with_nodes, lookup_alter_eq, Hn. reflexivity. }
  split; [now apply detach_run with nd|].
  split; [intros strict; now apply getParent_root with n (clear_parent nd)|].
  now apply getPath_root with n (clear_parent nd).
Qed.

End TreeFacts.

Import JsString JsonPatch Tree TopLevelApi TypeSystem Readings Tests.

Lemma detach_returns_same_value_now_root_witness :
  exists w',
    detach 3 two_trees = (Ok 3, w') /\
    (forall strict, getParent 3 strict w' = (Ok VNull, w')) /\
    getPath 3 w' = (Ok "", w').
Proof.
  apply (detach_returns_same_value_now_root two_trees 3 30).
  - vm_compute. reflexivity.
  - exists (child_node 3 10 "a/b"). vm_compute. reflexivity.
Defined.

(** The bound on the recursion of [pathParts] is never reached in a tree. *)

Section DepthFacts.
Import JsonPatch Tree TopLevelApi Readings.

Lemma depth_of_functional (ns : gmap NodeRef Node) n k k' :
  depth_of ns n k -> depth_of ns n k' -> k = k'.
Proof.
  intros H. revert k'. induction H as [n nd Hn Hp|n nd p k Hn Hp _ IH]; intros k' H'.
  - inversion H' as [? nd' Hn' Hp'|? nd' p' j Hn' Hp' _]; subst; [reflexivity|congruence].
  - inversion H' as [? nd' Hn' Hp'|? nd' p' j Hn' Hp' Hd']; subst; [congruence|].
    f_equal. apply IH. congruence.
Qed.

Lemma depth_of_delete (ns : gmap NodeRef Node) p k :
  depth_of ns p k ->
  forall n j, depth_of ns n j -> k < j -> depth_of (delete n ns) p k.
Proof.
  induction 1 as [p nd Hn Hp|p nd q k Hn Hp Hd IH]; intros n j Hj Hlt.
  - apply depth_root with nd; [|exact Hp].
    rewrite lookup_delete_ne; [exact Hn|]. intros ->.
    pose proof (depth_of_functional ns p j 0 Hj (depth_root ns p nd Hn Hp)). lia.
  - apply depth_child with nd q; [|exact Hp|apply IH with j; [exact Hj|lia]].
    rewrite lookup_delete_ne; [exact Hn|]. intros ->.
    pose proof (depth_of_functional ns p j (S k) Hj (depth_child ns p nd q k Hn Hp Hd)). lia.
Qed.

(** A chain of parents never is longer than the heap of nodes is large. *)
Lemma depth_of_bound k :
  forall (ns : gmap NodeRef Node) n, depth_of ns n k -> k < size ns.
Proof.
  induction k as [|k IH]; intros ns n H.
  - inversion H as [? nd Hn _|]; subst.
    destruct (decide (size ns = 0)) as [Hz|]; [|lia].
    apply map_size_empty_inv in Hz. subst. now rewrite lookup_empty in Hn.
  - inversion H as [|? nd p ? Hn Hp Hd]; subst.
    pose proof (depth_of_delete ns p k Hd n (S k) H (Nat.lt_succ_diag_r k)) as Hd'.
    apply IH in Hd'.
    rewrite <- (insert_delete_id ns n nd Hn), map_size_insert_None by apply lookup_delete_eq.
    lia.
Qed.

Lemma pathParts_upto_enough (ns : gmap NodeRef Node) n k :
  depth_of ns n k ->
  forall depth, k < depth ->
  exists parts, pathParts_upto depth ns n = Ok parts /\ length parts = k.
Proof.
  induction 1 as [n nd Hn Hp|n nd p k Hn Hp _ IH]; intros depth Hlt;
    (destruct depth as [|d]; [lia|]); cbn [pathParts_upto]; rewrite Hn, Hp.
  - now exists [].
  - destruct (IH d) as (parts & -> & Hlen); [lia|].
    exists (parts ++ [subpath nd]). split; [reflexivity|].
    rewrite length_app. simpl. lia.
Qed.

(** [node.pathParts] returns for every node of a tree: the bound on the
    recursion is never reached. *)
Lemma Node_pathParts_returns {T} (w : World T) n k :
  depth_of (nodes w) n k ->
  exists parts, Node_pathParts n w = (Ok parts, w) /\ length parts = k.
Proof.
  intros H. unfold Node_pathParts.
  destruct (pathParts_upto_enough _ _ _ H (S (size (nodes w)))) as (parts & -> & Hlen).
  - pose proof (depth_of_bound _ _ _ H). lia.
  - now exists parts.
Qed.

End DepthFacts.

(** ** Recording and replaying patches *)

Section RecorderFacts.
Import JsonPatch Tree TopLevelApi Readings.
Context {T : Type}.
Variable engine_applyPatch :
  NodeRef -> IJsonPatch -> T -> Result (T * list (NodeRef * IJsonPatch)).
Implicit Types (w : World T) (arr : ArrRef) (n : NodeRef) (p : IJsonPatch).

Lemma extends_refl w : extends [] w w.
Proof.
  repeat split; [now rewrite app_nil_r|].
  intros arr l H. exists []. now rewrite app_nil_r.
Qed.

Lemma extends_trans es1 es2 w1 w2 w3 :
  extends es1 w1 w2 -> extends es2 w2 w3 -> extends (es1 ++ es2) w1 w3.
Proof.
  intros (Ht1 & Hl1 & Ha1) (Ht2 & Hl2 & Ha2). repeat split.
  - congruence.
  - rewrite Hl2, Hl1. now rewrite app_assoc.
  - intros arr l H. destruct (Ha1 _ _ H) as [m1 H1].
    destruct (Ha2 _ _ H1) as [m2 H2]. exists (m1 ++ m2).
    now rewrite app_assoc.
Qed.

Lemma push_extends arr p w : extends [] w (push arr p w).
Proof.
  repeat split; [simpl; now rewrite app_nil_r|].
  intros a l H. unfold push. simpl.
  destruct (decide (arr = a)) as [->|Hne].
  - exists [p]. now rewrite lookup_alter_eq, H.
  - exists []. now rewrite lookup_alter_ne, app_nil_r.
Qed.

Lemma listeners_extend (ls : list (nat * PatchCallback)) p w :
  extends [] w (fold_left (fun w l => call l.2 p w) ls w).
Proof.
  revert w. induction ls as [|[id cb] ls IH]; intros w; simpl.
  - apply extends_refl.
  - change [] with (@nil Event ++ []).
    eapply extends_trans; [|apply IH].
    destruct cb. apply push_extends.
Qed.

Lemma emitPatch_extends w ev : extends [] w (emitPatch w ev).
Proof.
  unfold emitPatch. destruct (nodes w !! ev.1).
  - apply listeners_extend.
  - apply extends_refl.
Qed.

Lemma events_extend (evs : list (NodeRef * IJsonPatch)) w :
  extends [] w (fold_left emitPatch evs w).
Proof.
  revert w. induction evs as [|ev evs IH]; intros w; simpl.
  - apply extends_refl.
  - change [] with (@nil Event ++ []).
    eapply extends_trans; [apply emitPatch_extends|apply IH].
Qed.

Lemma Node_applyPatch_extends n p w :
  extends [ApplyPatchCall n p] w (Node_applyPatch engine_applyPatch n p w).2.
Proof.
  unfold Node_applyPatch.
  assert (extends [ApplyPatchCall n p] w (log (ApplyPatchCall n p) w)) as Hlog.
  { repeat split. intros arr l H. exists []. now rewrite app_nil_r. }
  destruct (engine_applyPatch n p (engine (log (ApplyPatchCall n p) w))) as [[t evs]|e]; simpl.
  - change [ApplyPatchCall n p] with ([ApplyPatchCall n p] ++ []).
    eapply extends_trans; [exact Hlog|].
    change [] with (@nil Event ++ []).
    eapply extends_trans; [|apply events_extend].
    repeat split; [simpl; now rewrite app_nil_r|].
    intros arr l H. exists []. now rewrite app_nil_r.
  - exact Hlog.
Qed.

(** [forEach] over the shared array visits what the array held when the loop
    began, whatever is pushed meanwhile. *)
Lemma forEach_from_fixed n arr (l : list IJsonPatch) :
  forall todo i more w,
    arrays w !! arr = Some (l ++ more) ->
    i + todo = length l ->
    forEach_from (fun p => Node_applyPatch engine_applyPatch n p) arr i todo w =
    apply_in_order engine_applyPatch n (drop i l) w.
Proof.
  induction todo as [|k IH]; intros i more w Harr Hlen.
  - rewrite drop_ge by lia. reflexivity.
  - assert (i < length l) as Hi by lia.
    destruct (lookup_lt_is_Some_2 l i Hi) as [x Hx].
    rewrite (drop_S _ _ _ Hx). simpl.
    rewrite Harr. simpl. rewrite (lookup_app_l_Some _ _ _ _ Hx).
    unfold ebind.
    pose proof (Node_applyPatch_extends n x w) as (_ & _ & Hgrow).
    destruct (Node_applyPatch engine_applyPatch n x w) as [[[]|e] w1]; [|reflexivity].
    destruct (Hgrow _ _ Harr) as [more' H1]. simpl in H1.
    rewrite <- app_assoc in H1.
    apply (IH (S i) _ _ H1). lia.
Qed.

Lemma forEach_fixed n arr (l : list IJsonPatch) w :
  arrays w !! arr = Some l ->
  forEach (fun p => Node_applyPatch engine_applyPatch n p) arr w =
  apply_in_order engine_applyPatch n l w.
Proof.
  intros H. unfold forEach. rewrite H. simpl.
  rewrite (forEach_from_fixed n arr l (length l) 0 [] w); [reflexivity| |lia].
  now rewrite app_nil_r.
Qed.

Lemma apply_in_order_trace n (ps : list IJsonPatch) :
  forall w w',
    apply_in_order engine_applyPatch n ps w = (Ok tt, w') ->
    trace w' = trace w ++ map (ApplyPatchCall n) ps.
Proof.
  induction ps as [|p ps IH]; intros w w' H; simpl in H.
  - injection H as <-. now rewrite app_nil_r.
  - unfold ebind in H.
    pose proof (Node_applyPatch_extends n p w) as (_ & Htr & _).
    destruct (Node_applyPatch engine_applyPatch n p w) as [[[]|e] w1]; [|discriminate].
    apply IH in H. simpl in Htr. rewrite H, Htr, <- app_assoc. reflexivity.
Qed.

Lemma apply_in_order_total n (ps : list IJsonPatch) :
  (forall n p t, exists r, engine_applyPatch n p t = Ok r) ->
  forall w, exists w', apply_in_order engine_applyPatch n ps w = (Ok tt, w').
Proof.
  intros Hok. induction ps as [|p ps IH]; intros w; simpl.
  - now exists w.
  - unfold ebind, Node_applyPatch.
    destruct (Hok n p (engine (log (ApplyPatchCall n p) w))) as [[t evs] ->].
    apply IH.
Qed.

Lemma replay_unfold (recorder : IPatchRecorder) (target : IModel) n ps w :
  treenode w !! target = Some n ->
  arrays w !! patches recorder = Some ps ->
  replay engine_applyPatch recorder target w =
  runInAction (apply_in_order engine_applyPatch n ps) w.
Proof.
  intros Hn Hps. unfold replay, applyPatches, ebind at 1, getNode. rewrite Hn.
  unfold runInAction, finally, ebind, modify.
  rewrite (forEach_fixed n (patches recorder) ps (log BatchStart w)) by exact Hps.
  reflexivity.
Qed.

(** Claim C7.  [replay(target)] applies to the node of [target] exactly the
    patches the recorder's array holds when the call starts, in their order
    and inside one batch: the call is [runInAction] around the in-order
    application of that sequence; when it returns, the log has gained one
    [BatchStart], the [applyPatch] calls in recorded order and one
    [BatchEnd]; and it returns whenever the engine accepts every patch. *)
Theorem replay_applies_recorded_patches_in_one_batch
    (recorder : IPatchRecorder) (target : IModel) n (ps : list IJsonPatch) w :
  treenode w !! target = Some n ->
  arrays w !! patches recorder = Some ps ->
  replay engine_applyPatch recorder target w =
    runInAction (apply_in_order engine_applyPatch n ps) w /\
  (forall w',
      replay engine_applyPatch recorder target w = (Ok tt, w') ->
      trace w' = trace w ++ [BatchStart] ++ map (ApplyPatchCall n) ps ++ [BatchEnd]) /\
  ((forall n p t, exists r, engine_applyPatch n p t = Ok r) ->
   exists w', replay engine_applyPatch recorder target w = (Ok tt, w')).
Proof.
  intros Hn Hps.
  pose proof (replay_unfold recorder target n ps w Hn Hps) as Hrun.
  split; [exact Hrun|]. rewrite Hrun.
  unfold runInAction, finally, ebind, modify. split.
  - intros w'.
    destruct (apply_in_order engine_applyPatch n ps (log BatchStart w)) as [r w1] eqn:E.
    intros H. injection H as -> <-.
    apply apply_in_order_trace in E. simpl. rewrite E. simpl.
    now rewrite <- !app_assoc.
  - intros Hok.
    destruct (apply_in_order_total n ps Hok (log BatchStart w)) as [w1 ->].
    now eexists.
Qed.

End RecorderFacts.

Example recording_returns_the_recorder : (recording two_trees).1 = Ok the_recorder.
Proof. vm_compute. reflexivity. Qed.

Lemma replay_applies_recorded_patches_in_one_batch_witness :
  replay echo_engine the_recorder 2 recorded_world =
    runInAction (apply_in_order echo_engine 20 [set_width 3; set_width 4]) recorded_world /\
  (forall w',
      replay echo_engine the_recorder 2 recorded_world = (Ok tt, w') ->
      trace w' = trace recorded_world ++ [BatchStart]
                 ++ map (ApplyPatchCall 20) [set_width 3; set_width 4] ++ [BatchEnd]) /\
  ((forall n p t, exists r, echo_engine n p t = Ok r) ->
   exists w', replay echo_engine the_recorder 2 recorded_world = (Ok tt, w')).
Proof.
  apply (replay_applies_recorded_patches_in_one_batch echo_engine the_recorder 2 20
           [set_width 3; set_width 4] recorded_world).
  - vm_compute. reflexivity.
  - vm_compute. reflexivity.
Defined.

Section RecordingFacts.
Import JsonPatch Tree TopLevelApi Readings.
Context {T : Type}.
Implicit Types (w : World T) (arr : ArrRef) (n : NodeRef) (p : IJsonPatch).

Lemma listeners_keep_nodes (ls : list (nat * PatchCallback)) p w :
  nodes (fold_left (fun w l => call l.2 p w) ls w) = nodes w.
Proof.
  revert w. induction ls as [|[id [a]] ls IH]; intros w; [reflexivity|].
  cbn [fold_left]. now rewrite IH.
Qed.

Lemma emitPatch_keeps_nodes w ev : nodes (emitPatch w ev) = nodes w.
Proof.
  unfold emitPatch. destruct (nodes w !! ev.1); [apply listeners_keep_nodes|reflexivity].
Qed.

Lemma listeners_push (ls : list (nat * PatchCallback)) p arr :
  forall w l,
    arrays w !! arr = Some l ->
    arrays (fold_left (fun w l => call l.2 p w) ls w) !! arr =
    Some (l ++ repeat p (length (List.filter (pushes_to arr) ls))).
Proof.
  induction ls as [|[id [a]] ls IH]; intros w l Hl; cbn [fold_left List.filter].
  - now rewrite app_nil_r.
  - unfold pushes_to at 1. cbn [snd call].
    destruct (Nat.eqb_spec a arr) as [->|Hne].
    + rewrite (IH (push arr p w) (l ++ [p])).
      * cbn [length repeat]. now rewrite <- app_assoc.
      * unfold push. cbn. now rewrite lookup_alter_eq, Hl.
    + apply IH. unfold push. cbn. now rewrite lookup_alter_ne.
Qed.

Lemma emitPatch_push w n (nd : Node) p arr l :
  nodes w !! n = Some nd ->
  arrays w !! arr = Some l ->
  length (List.filter (pushes_to arr) (patchListeners nd)) = 1 ->
  arrays (emitPatch w (n, p)) !! arr = Some (l ++ [p]).
Proof.
  intros Hn Hl H1. unfold emitPatch. cbn [fst snd]. rewrite Hn.
  rewrite (listeners_push _ p arr w l Hl), H1. reflexivity.
Qed.

Lemma emitted_patches_recorded n (nd : Node) arr (ps : list IJsonPatch) :
  length (List.filter (pushes_to arr) (patchListeners nd)) = 1 ->
  forall w l,
    nodes w !! n = Some nd ->
    arrays w !! arr = Some l ->
    arrays (fold_left emitPatch (map (pair n) ps) w) !! arr = Some (l ++ ps).
Proof.
  intros H1. induction ps as [|p ps IH]; intros w l Hn Hl; cbn [map fold_left].
  - now rewrite app_nil_r.
  - rewrite (IH (emitPatch w (n, p)) (l ++ [p])).
    + now rewrite <- app_assoc.
    + now rewrite emitPatch_keeps_nodes.
    + now apply emitPatch_push with nd.
Qed.

(** From the moment [recordPatches] returns, the recorder's array holds the
    patches its subject has emitted since, oldest first. *)
Lemma recordPatches_accumulates_in_emission_order w (subject : IModel) n (nd : Node) :
  treenode w !! subject = Some n ->
  nodes w !! n = Some nd ->
  List.filter (pushes_to (fresh w)) (patchListeners nd) = [] ->
  exists recorder w1,
    recordPatches subject w = (Ok recorder, w1) /\
    arrays w1 !! patches recorder = Some [] /\
    forall ps : list IJsonPatch,
      arrays (fold_left emitPatch (map (pair n) ps) w1) !! patches recorder = Some ps.
Proof.
  intros Hs Hn Hnew.
  unfold recordPatches, new_array, onPatch, Node_onPatch, getNode, deref, take_fresh,
    ebind, modify, eret.
  cbn [with_arrays treenode nodes fresh]. rewrite Hs. cbn [with_arrays treenode nodes fresh]. rewrite Hn. do 2 eexists. split; [reflexivity|].
  cbn. split; [apply lookup_insert_eq|]. intros ps.
  change (Some ps) with (Some ([] ++ ps)).
  apply (emitted_patches_recorded n (add_listener (S (fresh w)) (PushTo (fresh w)) nd)).
  - unfold add_listener. cbn [patchListeners].
    rewrite List.filter_app, Hnew. cbn. unfold pushes_to. cbn. now rewrite Nat.eqb_refl.
  - cbn. now rewrite lookup_alter_eq, Hn.
  - cbn. apply lookup_insert_eq.
Qed.

End RecordingFacts.

(** ** Factories: validation, defaults, unions *)

Section TypeSystemFacts.
Import JsString JsonPatch TypeSystem Readings.
Variable map_notation : string -> string.
Variable float_notation : Z -> Z -> string.
Variable variant_order : list TypeDescriptor -> list TypeDescriptor.

Abbreviation instantiate := (TypeSystem.instantiate map_notation float_notation).
Abbreviation Factory := (TypeSystem.Factory map_notation float_notation).
Abbreviation stringify := (TypeSystem.stringify float_notation).
Abbreviation types_union := (TypeSystem.types_union variant_order).

















Lemma Factory_None t : Factory t None = instantiate t (initial_snapshot t).
Proof. reflexivity. Qed.







Lemma withDefault_accepts_valid_default t d :
  is_ t d = true -> types_withDefault map_notation float_notation t d = Ok (WithDefault t d).
Proof.
  intros Hv. unfold types_withDefault. now rewrite Hv.
Qed.

End TypeSystemFacts.

(** The repository's tests, replayed on the model. *)
Example test_default_value_without_snapshot :
  types_withDefault Tests.map_notation Tests.float_notation (types_array Row) rows_test
    = Ok RowsWithDefault /\
  match Factory Tests.map_notation Tests.float_notation Rows None with
  | Ok doc =>
      getSnapshot doc =
      JObj [("rows", JArr [JObj [("name", JStr "test"); ("quantity", JNum 0)]])]
  | Throw _ => False
  end.
Proof. split; vm_compute; reflexivity. Qed.

Example test_snapshot_used_if_provided :
  match Factory Tests.map_notation Tests.float_notation Rows (Some rows_snapshot) with
  | Ok doc => getSnapshot doc = rows_snapshot
  | Throw _ => False
  end.
Proof. vm_compute. reflexivity. Qed.

Example test_invalid_default_throws :
  types_withDefault Tests.map_notation Tests.float_notation (types_array RowWithAction) rows_wrong
  = Throw with_default_test_message.
Proof. vm_compute. reflexivity. Qed.

Example test_no_dispatch_method :
  Factory Tests.map_notation Tests.float_notation Plane (Some width_2)
  = Throw union_test_message.
Proof. vm_compute. reflexivity. Qed.

Example test_discriminate_by_value_type :
  match Factory Tests.map_notation Tests.float_notation PictureOrSquare (Some sized) with
  | Ok doc => is_instance Picture doc = true /\ is_instance SquareOfSize doc = false
  | Throw _ => False
  end.
Proof. vm_compute. split; reflexivity. Qed.

Example test_exact_union_types :
  match Factory Tests.map_notation Tests.float_notation Box None,
        Factory Tests.map_notation Tests.float_notation Square None with
  | Ok box, Ok square => is_instance Plane box = true /\ is_instance Plane square = true
  | _, _ => False
  end.
Proof. vm_compute. split; reflexivity. Qed.

Example test_exact_union_types_with_dispatcher :
  match Factory Tests.map_notation Tests.float_notation Box None,
        Factory Tests.map_notation Tests.float_notation Square None with
  | Ok box, Ok square =>
      is_instance DispatchPlane box = true /\ is_instance DispatchPlane square = true
  | _, _ => False
  end.
Proof. vm_compute. split; reflexivity. Qed.

(** Section 5 of the specification: the dispatcher decides, whatever the keys
    the variants share. *)
Example dispatcher_selects_variant :
  Factory Tests.map_notation Tests.float_notation DispatchPlane (Some width_2)
    = Ok (IObject "Square" [("width", IPrimitive (JNum 2))]) /\
  Factory Tests.map_notation Tests.float_notation DispatchPlane (Some (JObj [("height", JNum 1)]))
    = Ok (IObject "Box" [("width", IPrimitive (JNum 0)); ("height", IPrimitive (JNum 1))]).
Proof. split; vm_compute; reflexivity. Qed.







(** * Further facts *)

(** ** More on the path codec *)

Section PathCodecExtras.
Import JsString JsonPatch Readings.

Lemma escape_units_nonempty (c : ascii) (s : string) : escape_units (String c s) <> "".
Proof.
  cbn [escape_units]. destruct (Ascii.eqb c "~"); [discriminate|].
  destruct (Ascii.eqb c "/"); discriminate.
Qed.

Lemma escape_units_inj (s : string) : forall t, escape_units s = escape_units t -> s = t.
Proof.
  induction s as [|c s IH]; intros [|d t] H.
  - reflexivity.
  - symmetry in H. now apply escape_units_nonempty in H.
  - now apply escape_units_nonempty in H.
  - cbn [escape_units] in H.
    destruct (Ascii.eqb_spec c "~") as [->|Hc1]; destruct (Ascii.eqb_spec d "~") as [->|Hd1].
    + injection H as H. f_equal. now apply IH.
    + destruct (Ascii.eqb_spec d "/") as [->|Hd2]; [discriminate H|].
      injection H as H _. congruence.
    + destruct (Ascii.eqb_spec c "/") as [->|Hc2]; [discriminate H|].
      injection H as H _. congruence.
    + destruct (Ascii.eqb_spec c "/") as [->|Hc2]; destruct (Ascii.eqb_spec d "/") as [->|Hd2].
      * injection H as H. f_equal. now apply IH.
      * injection H as H _. congruence.
      * injection H as H _. congruence.
      * injection H as -> H. f_equal. now apply IH.
Qed.

Lemma escapeJsonPath_inj (s t : string) : escapeJsonPath s = escapeJsonPath t -> s = t.
Proof. rewrite !escapeJsonPath_units. apply escape_units_inj. Qed.

Lemma escapeJsonPath_slash_free (s : string) : has_slash (escapeJsonPath s) = false.
Proof. rewrite escapeJsonPath_units. apply has_slash_escape_units. Qed.

(** Escaping loses nothing, different segments have different escapes, and
    an escaped segment holds no slash: the slashes of a joined path are its
    separators and nothing else. *)
Theorem escapeJsonPath_injective_and_slash_free (s t : string) :
  (escapeJsonPath s = escapeJsonPath t <-> s = t) /\
  has_slash (escapeJsonPath s) = false.
Proof.
  split; [|apply escapeJsonPath_slash_free].
  split; [apply escapeJsonPath_inj|now intros ->].
Qed.

(** Escaping and unescaping a segment turns its slashes into backslashes and
    changes nothing else; the segment comes back exactly when it has no
    slash, tildes or not. *)
Theorem unescape_escape_exactly_without_slash (s : string) :
  unescapeJsonPath (escapeJsonPath s) = slashes_to_backslashes s /\
  String.length (unescapeJsonPath (escapeJsonPath s)) = String.length s /\
  (unescapeJsonPath (escapeJsonPath s) = s <-> has_slash s = false).
Proof.
  split; [apply unescape_escape|]. split; [|apply unescape_escape_iff].
  rewrite unescape_escape. induction s as [|c s IH]; [reflexivity|].
  cbn [slashes_to_backslashes]. destruct (Ascii.eqb c "/"); cbn [String.length]; now rewrite IH.
Qed.

Lemma split_nonempty (sep : ascii) (s : string) : split sep s <> [].
Proof.
  destruct s as [|c s]; cbn [split]; [discriminate|].
  destruct (Ascii.eqb c sep); [discriminate|]. destruct (split sep s); discriminate.
Qed.

Lemma join_cons_cons (sep p q : string) (rest : list string) :
  join sep (p :: q :: rest) = p +:+ sep +:+ join sep (q :: rest).
Proof. reflexivity. Qed.

Lemma join_split (s : string) : join "/" (split "/" s) = s.
Proof.
  induction s as [|c s IH]; [reflexivity|]. cbn [split].
  destruct (Ascii.eqb_spec c "/") as [->|Hc].
  - pose proof (split_nonempty "/" s) as Hne.
    destruct (split "/" s) as [|h t] eqn:E; [now elim Hne|].
    rewrite join_cons_cons, IH. reflexivity.
  - pose proof (split_nonempty "/" s) as Hne.
    destruct (split "/" s) as [|h t] eqn:E; [now elim Hne|].
    destruct t as [|h' t].
    + cbn [join] in *. now rewrite IH.
    + rewrite join_cons_cons in *. rewrite append_cons, IH. reflexivity.
Qed.

Lemma joinJsonPath_cons (s : string) (segs : list string) :
  joinJsonPath (s :: segs) = String "/" (join "/" (map escapeJsonPath (s :: segs))).
Proof. reflexivity. Qed.

(** Joining loses nothing either: different segment lists give different
    paths, and only the empty list gives the empty path, the root. *)
Theorem joinJsonPath_injective (a b : list string) :
  (joinJsonPath a = joinJsonPath b <-> a = b) /\
  (joinJsonPath a = "" <-> a = []).
Proof.
  split.
  - split; [|now intros ->].
    intros H. destruct a as [|x a]; destruct b as [|y b]; try reflexivity;
      rewrite ?joinJsonPath_cons in H; try discriminate H.
    assert (join "/" (map escapeJsonPath (x :: a)) = join "/" (map escapeJsonPath (y :: b)))
      as H' by congruence.
    clear H. rename H' into H. apply (f_equal (split "/")) in H.
    rewrite !split_join in H; try discriminate;
      try (apply Forall_forall; intros z Hz;
           apply list_elem_of_In, in_map_iff in Hz as (z' & <- & _);
           apply escapeJsonPath_slash_free).
    revert H. generalize (x :: a) (y :: b). clear. intros a.
    induction a as [|x a IH]; intros [|y b] H; try discriminate H; [reflexivity|].
    cbn [map] in H. injection H as Hx H. f_equal; [now apply escapeJsonPath_inj|now apply IH].
  - split; [|now intros ->]. destruct a; [reflexivity|]. rewrite joinJsonPath_cons. discriminate.
Qed.

(** Whatever the segments, splitting their joined path succeeds and returns
    as many segments, each with its slashes turned into backslashes; it
    returns the segments themselves exactly when none holds a slash. *)
Theorem splitJsonPath_joinJsonPath_segments (segs : list string) :
  exists parts,
    splitJsonPath (joinJsonPath segs) = Ok parts /\
    length parts = length segs /\
    parts = map slashes_to_backslashes segs /\
    (parts = segs <-> Forall (fun s => has_slash s = false) segs).
Proof.
  exists (map slashes_to_backslashes segs).
  split; [apply splitJsonPath_joinJsonPath|]. split; [apply length_map|].
  split; [reflexivity|].
  rewrite <- splitJsonPath_joinJsonPath_iff, splitJsonPath_joinJsonPath.
  split; [now intros ->|]. intros H. now injection H.
Qed.

(** A path is accepted exactly when it is empty or begins with a slash; any
    other path is rejected with a message that quotes it. *)
Theorem splitJsonPath_accepts_absolute_paths_only (path : string) :
  ((exists parts, splitJsonPath path = Ok parts) <->
   path = "" \/ exists rest, path = String "/" rest) /\
  (path <> "" -> first_is "/" path = false ->
   splitJsonPath path =
   Throw ("[mobx-state-tree] Expected path to start with '/', got: '" +:+ path +:+ "'")).
Proof.
  unfold splitJsonPath. destruct path as [|c rest].
  - split; [|now intros H]. split; [now left|]. intros _. now exists [].
  - cbn [String.eqb first_is]. split.
    + destruct (Ascii.eqb_spec c "/") as [->|Hc].
      * split; [intros _; right; now exists rest|].
        intros _. eexists. reflexivity.
      * split; [intros [parts H]; discriminate H|].
        intros [H|[r H]]; [discriminate H|]. injection H as -> _. now elim Hc.
    + intros _ E. rewrite E. reflexivity.
Qed.

Lemma splitJsonPath_accepts_absolute_paths_only_witness :
  splitJsonPath "a/b" =
  Throw ("[mobx-state-tree] Expected path to start with '/', got: '" +:+ "a/b" +:+ "'").
Proof.
  apply (proj2 (splitJsonPath_accepts_absolute_paths_only "a/b")); [discriminate|reflexivity].
Defined.

(** Only the empty path stands for the root: every other accepted path has
    at least one segment, [/] the single segment with the empty name. *)
Theorem splitJsonPath_root_only_for_empty (path : string) :
  splitJsonPath path = Ok [] <-> path = "".
Proof.
  split; [|now intros ->]. unfold splitJsonPath. destruct path as [|c rest]; [reflexivity|].
  cbn [String.eqb first_is substr1]. destruct (Ascii.eqb c "/"); cbn; [|discriminate].
  intros H. injection H as H. apply map_eq_nil in H. now apply split_nonempty in H.
Qed.

Lemma unescapeJsonPath_without_tilde (s : string) :
  has_tilde s = false -> unescapeJsonPath s = s.
Proof.
  unfold unescapeJsonPath, backslash. intros H.
  assert (forall b rep, replace_all (String "~" (String b "")) rep s = s) as E.
  { intros b rep. induction s as [|c s IH]; [reflexivity|].
    cbn [has_tilde] in H. apply orb_false_iff in H as [Hc Hs].
    rewrite replace_pair_miss by now rewrite Ascii.eqb_sym.
    now rewrite IH. }
  now rewrite !E.
Qed.

Lemma escapeJsonPath_plain (s : string) :
  has_tilde s = false -> has_slash s = false -> escapeJsonPath s = s.
Proof.
  rewrite escapeJsonPath_units. induction s as [|c s IH]; [reflexivity|].
  cbn [has_tilde has_slash escape_units]. intros [-> Ht]%orb_false_iff [-> Hs]%orb_false_iff.
  now rewrite IH.
Qed.

Lemma split_parts_plain (s : string) :
  has_tilde s = false ->
  Forall (fun p => has_tilde p = false /\ has_slash p = false) (split "/" s).
Proof.
  induction s as [|c s IH]; [now repeat constructor|].
  cbn [has_tilde split]. intros [Hc Hs]%orb_false_iff. specialize (IH Hs).
  destruct (Ascii.eqb c "/") eqn:E.
  - constructor; [now split|exact IH].
  - destruct (split "/" s) as [|h t]; [now repeat constructor; cbn; rewrite ?Hc, ?E|].
    inversion IH as [|? ? [Hh1 Hh2] Ht]; subst. constructor; [|exact Ht].
    cbn [has_tilde has_slash]. now rewrite Hc, E, Hh1, Hh2.
Qed.

(** Splitting and joining again gives the path back when the path holds no
    tilde. *)
Theorem joinJsonPath_splitJsonPath_without_tilde (path : string) :
  has_tilde path = false ->
  path = "" \/ first_is "/" path = true ->
  exists parts, splitJsonPath path = Ok parts /\ joinJsonPath parts = path.
Proof.
  intros Ht Habs. destruct path as [|c rest]; [now exists []|].
  destruct Habs as [H|Hc]; [discriminate H|].
  cbn [first_is] in Hc. apply Ascii.eqb_eq in Hc as ->.
  cbn [has_tilde] in Ht. apply orb_false_iff in Ht as [_ Ht].
  exists (map unescapeJsonPath (split "/" rest)). split; [reflexivity|].
  pose proof (split_parts_plain rest Ht) as Hparts.
  assert (map escapeJsonPath (map unescapeJsonPath (split "/" rest)) = split "/" rest) as E.
  { induction Hparts as [|p ps [Hp1 Hp2] _ IH]; [reflexivity|].
    cbn [map]. rewrite IH, (unescapeJsonPath_without_tilde p Hp1).
    now rewrite (escapeJsonPath_plain p Hp1 Hp2). }
  pose proof (split_nonempty "/" rest) as Hne.
  destruct (map unescapeJsonPath (split "/" rest)) as [|x xs] eqn:Ex.
  - apply map_eq_nil in Ex. now elim Hne.
  - rewrite joinJsonPath_cons, E, join_split. reflexivity.
Qed.

Lemma joinJsonPath_splitJsonPath_without_tilde_witness :
  exists parts, splitJsonPath "/users/0/name" = Ok parts /\ joinJsonPath parts = "/users/0/name".
Proof.
  apply (joinJsonPath_splitJsonPath_without_tilde "/users/0/name"); [reflexivity|].
  right. reflexivity.
Defined.

End PathCodecExtras.

(** ** What a path can address *)

Section SplitExtras.
Import JsString JsonPatch Readings.

Lemma has_slash_append (s t : string) :
  has_slash (s +:+ t) = has_slash s || has_slash t.
Proof.
  induction s as [|c s IH]; [reflexivity|].
  rewrite append_cons. cbn [has_slash]. now rewrite IH, orb_assoc.
Qed.

Lemma replace_from_slash_free (pat rep : string) :
  has_slash rep = false ->
  forall s skip, has_slash s = false -> has_slash (replace_from pat rep skip s) = false.
Proof.
  intros Hrep. induction s as [|c s IH]; intros skip Hs; [reflexivity|].
  cbn [has_slash] in Hs. apply orb_false_iff in Hs as [Hc Hs].
  cbn [replace_from]. destruct skip as [|k]; [|now apply IH].
  destruct (starts_with pat (String c s)).
  - rewrite has_slash_append, Hrep. now apply IH.
  - cbn [has_slash]. rewrite Hc. now apply IH.
Qed.

Lemma unescapeJsonPath_slash_free (s : string) :
  has_slash s = false -> has_slash (unescapeJsonPath s) = false.
Proof.
  intros H. unfold unescapeJsonPath, replace_all.
  apply replace_from_slash_free; [reflexivity|].
  now apply replace_from_slash_free.
Qed.

Lemma split_parts_slash_free (s : string) :
  Forall (fun p => has_slash p = false) (split "/" s).
Proof.
  induction s as [|c s IH]; [now repeat constructor|]. cbn [split].
  destruct (Ascii.eqb c "/") eqn:E; [now constructor|].
  destruct (split "/" s) as [|h t]; [repeat constructor; cbn; now rewrite E|].
  inversion IH as [|? ? Hh Ht]; subst. constructor; [|exact Ht].
  cbn [has_slash]. now rewrite E, Hh.
Qed.

(** No segment that [splitJsonPath] returns holds a slash: a name with a
    slash in it cannot be reached through a path. *)
Theorem splitJsonPath_segments_have_no_slash (path : string) (parts : list string) :
  splitJsonPath path = Ok parts ->
  Forall (fun p => has_slash p = false) parts.
Proof.
  unfold splitJsonPath. destruct (String.eqb path "").
  - intros H. injection H as <-. constructor.
  - destruct (first_is "/" path); cbn; [|discriminate].
    intros H. injection H as <-.
    apply Forall_forall. intros x Hx.
    apply list_elem_of_In, in_map_iff in Hx as (y & <- & Hy).
    apply unescapeJsonPath_slash_free.
    pose proof (split_parts_slash_free (substr1 path)) as Hall.
    rewrite Forall_forall in Hall. apply Hall. now apply list_elem_of_In.
Qed.

Lemma splitJsonPath_segments_have_no_slash_witness :
  Forall (fun p => has_slash p = false) ["a"; "b~"; ""].
Proof.
  apply (splitJsonPath_segments_have_no_slash "/a/b~1/"). reflexivity.
Defined.

End SplitExtras.

(** ** More on applying and recording patches *)

Section ApplyPatchesExtras.
Context {T : Type}.
Variable engine_applyPatch :
  NodeRef -> IJsonPatch -> T -> Result (T * list (NodeRef * IJsonPatch)).
Implicit Types (w : World T) (arr : ArrRef) (n : NodeRef) (p : IJsonPatch).

Lemma apply_in_order_app n (pre post : list IJsonPatch) w :
  apply_in_order engine_applyPatch n (pre ++ post) w =
  (do _ <- apply_in_order engine_applyPatch n pre; apply_in_order engine_applyPatch n post) w.
Proof.
  revert w. induction pre as [|p pre IH]; intros w; [reflexivity|].
  cbn [app apply_in_order]. unfold ebind.
  destruct (Node_applyPatch engine_applyPatch n p w) as [[[]|e] w1]; [|reflexivity].
  rewrite IH. reflexivity.
Qed.

Lemma applyPatches_unfold (target : IModel) arr n (ps : list IJsonPatch) w :
  treenode w !! target = Some n ->
  arrays w !! arr = Some ps ->
  applyPatches engine_applyPatch target arr w =
  runInAction (apply_in_order engine_applyPatch n ps) w.
Proof.
  intros Hn Hps. unfold applyPatches, ebind at 1, getNode. rewrite Hn.
  unfold runInAction, finally, ebind, modify.
  rewrite (forEach_fixed engine_applyPatch n arr ps (log BatchStart w)) by exact Hps.
  reflexivity.
Qed.

(** [applyPatches] is not all or nothing.  When the engine rejects a patch of
    the array, the patches before it stay applied, the ones after it are not
    attempted, the batch is closed all the same and the engine's error
    reaches the caller. *)
Theorem applyPatches_stops_at_first_rejected_patch
    (target : IModel) arr n (pre post : list IJsonPatch) p (e : string) w w1 :
  treenode w !! target = Some n ->
  arrays w !! arr = Some (pre ++ p :: post) ->
  apply_in_order engine_applyPatch n pre (log BatchStart w) = (Ok tt, w1) ->
  engine_applyPatch n p (engine w1) = Throw e ->
  exists w',
    applyPatches engine_applyPatch target arr w = (Throw e, w') /\
    engine w' = engine w1 /\
    trace w' = trace w ++ [BatchStart] ++ map (ApplyPatchCall n) (pre ++ [p]) ++ [BatchEnd].
Proof.
  intros Hn Harr Hpre Hrej.
  exists (log BatchEnd (log (ApplyPatchCall n p) w1)).
  rewrite (applyPatches_unfold target arr n _ w Hn Harr).
  unfold runInAction, finally, ebind at 1, modify.
  rewrite apply_in_order_app. unfold ebind at 1. rewrite Hpre.
  cbn [apply_in_order]. unfold ebind at 1, Node_applyPatch.
  cbn [engine log]. rewrite Hrej. split; [reflexivity|]. split; [reflexivity|].
  apply apply_in_order_trace in Hpre. cbn [trace log] in *.
  rewrite Hpre, map_app. cbn [map]. now rewrite <- !app_assoc.
Qed.

End ApplyPatchesExtras.

Lemma applyPatches_stops_at_first_rejected_patch_witness :
  exists w',
    applyPatches no_removal_engine 1 5 counting_world
      = (Throw "[mobx-state-tree] Cannot remove /depth", w') /\
    engine w' = 1 /\
    trace w' = trace counting_world ++ [BatchStart]
               ++ map (ApplyPatchCall 10) ([set_width 3] ++ [remove_depth]) ++ [BatchEnd].
Proof.
  apply (applyPatches_stops_at_first_rejected_patch no_removal_engine 1 5 10
           [set_width 3] [set_width 4] remove_depth
           "[mobx-state-tree] Cannot remove /depth" counting_world
           (apply_in_order no_removal_engine 10 [set_width 3] (log BatchStart counting_world)).2).
  - vm_compute. reflexivity.
  - vm_compute. reflexivity.
  - vm_compute. reflexivity.
  - vm_compute. reflexivity.
Defined.

Section RecorderExtras.
Context {T : Type}.
Implicit Types (w : World T) (arr : ArrRef) (n : NodeRef) (p : IJsonPatch).

Lemma emitted_keep_nodes (evs : list (NodeRef * IJsonPatch)) w :
  nodes (fold_left emitPatch evs w) = nodes w.
Proof.
  revert w. induction evs as [|ev evs IH]; intros w; [reflexivity|].
  cbn [fold_left]. now rewrite IH, emitPatch_keeps_nodes.
Qed.

Lemma emitted_patches_unheard n (nd : Node) arr (ps : list IJsonPatch) :
  List.filter (pushes_to arr) (patchListeners nd) = [] ->
  forall w l,
    nodes w !! n = Some nd ->
    arrays w !! arr = Some l ->
    arrays (fold_left emitPatch (map (pair n) ps) w) !! arr = Some l.
Proof.
  intros H0. induction ps as [|p ps IH]; intros w l Hn Hl; [exact Hl|].
  cbn [map fold_left]. apply IH.
  - now rewrite emitPatch_keeps_nodes.
  - unfold emitPatch. cbn [fst snd]. rewrite Hn.
    rewrite (listeners_push _ p arr w l Hl), H0. cbn. now rewrite app_nil_r.
Qed.

Lemma filter_filter_nil {A} (f g : A -> bool) (l : list A) :
  List.filter f l = [] -> List.filter f (List.filter g l) = [].
Proof.
  induction l as [|a l IH]; [reflexivity|]. cbn [List.filter].
  destruct (f a) eqn:Ef; [discriminate|]. intros H.
  destruct (g a); cbn [List.filter]; rewrite ?Ef; now apply IH.
Qed.

(** [stop()] ends the recording: the patches the subject emitted before it
    stay in the recorder's array, the ones it emits afterwards are not
    added. *)
Theorem stop_ends_recording w (subject : IModel) n (nd : Node)
    (before after : list IJsonPatch) :
  treenode w !! subject = Some n ->
  nodes w !! n = Some nd ->
  List.filter (pushes_to (fresh w)) (patchListeners nd) = [] ->
  exists recorder w1 w2,
    recordPatches subject w = (Ok recorder, w1) /\
    stop recorder (fold_left emitPatch (map (pair n) before) w1) = (Ok tt, w2) /\
    arrays w2 !! patches recorder = Some before /\
    arrays (fold_left emitPatch (map (pair n) after) w2) !! patches recorder = Some before.
Proof.
  intros Hs Hn Hnew.
  destruct (recordPatches_accumulates_in_emission_order w subject n nd Hs Hn Hnew)
    as (recorder & w1 & Hrec & _ & Hacc).
  exists recorder, w1. eexists. split; [exact Hrec|].
  split; [reflexivity|].
  revert Hrec Hacc.
  unfold recordPatches, new_array, onPatch, Node_onPatch, getNode, deref, take_fresh,
    ebind, modify, eret.
  cbn [with_arrays treenode nodes fresh]. rewrite Hs. cbn [with_arrays treenode nodes fresh].
  rewrite Hn. intros Hrec Hacc. injection Hrec as <- <-.
  cbn [patches recorder_disposer disposer_node disposer_id fresh with_arrays] in *.
  set (w1 := with_nodes _ _) in *.
  assert (arrays (with_nodes (alter (remove_listener (S (fresh w))) n)
                    (fold_left emitPatch (map (pair n) before) w1)) !! fresh w = Some before)
    as Harr by apply Hacc.
  split; [exact Harr|].
  apply (emitted_patches_unheard n
           (remove_listener (S (fresh w)) (add_listener (S (fresh w)) (PushTo (fresh w)) nd)));
    [| |exact Harr].
  - unfold remove_listener, add_listener. cbn [patchListeners].
    rewrite List.filter_app. cbn [List.filter fst]. rewrite Nat.eqb_refl. cbn [negb].
    rewrite app_nil_r. now apply filter_filter_nil.
  - rewrite nodes_with_nodes, lookup_alter_eq, emitted_keep_nodes.
    subst w1. rewrite nodes_with_nodes, lookup_alter_eq. cbn [nodes]. now rewrite Hn.
Qed.

End RecorderExtras.

Lemma stop_ends_recording_witness :
  exists recorder w1 w2,
    recordPatches 1 two_trees = (Ok recorder, w1) /\
    stop recorder (fold_left emitPatch (map (pair 10) [set_width 3]) w1) = (Ok tt, w2) /\
    arrays w2 !! patches recorder = Some [set_width 3] /\
    arrays (fold_left emitPatch (map (pair 10) [set_width 4]) w2) !! patches recorder
      = Some [set_width 3].
Proof.
  apply (stop_ends_recording two_trees 1 10 (root_node 1) [set_width 3] [set_width 4]).
  - vm_compute. reflexivity.
  - vm_compute. reflexivity.
  - reflexivity.
Defined.
